(** * rq: command line scanning and the expression pipeline of [main.cpp]

    A shallow embedding of [src/main.cpp]: the constructor of
    [ProgramOptions] (the option scanner, an iterator loop that erases
    processed arguments from a vector in place) and [main] (the pipeline
    that feeds the wrapped expressions to the mruby interpreter). *)

From Stdlib Require Import Ascii String ZArith DecimalString.
From stdpp Require Import base decidable list strings.
From Equations Require Import Equations.
From Equations.Prop Require Import Logic.

Local Open Scope string_scope.
Local Open Scope list_scope.

(** * The embedding of [main.cpp] *)

(** ** Exceptions

    [std::runtime_error] carries its [what()] text.  A computation that may
    throw returns [Thrown what] or [Returned a]. *)

Inductive except (A : Type) : Type :=
| Thrown (what : string)
| Returned (a : A).
Arguments Thrown {A} what.
Arguments Returned {A} a.

(** ** [struct ProgramOptions] *)

Record ProgramOptions : Type := mkProgramOptions {
  help : bool;
  version : bool;
  expressions : list string
}.

Definition set_help (o : ProgramOptions) : ProgramOptions :=
  mkProgramOptions true (version o) (expressions o).

Definition set_version (o : ProgramOptions) : ProgramOptions :=
  mkProgramOptions (help o) true (expressions o).

Definition set_expressions (o : ProgramOptions) (l : list string) : ProgramOptions :=
  mkProgramOptions (help o) (version o) l.

(** The locals of the constructor while the [while] loop runs: the object
    under construction, the vector [args] and the iterator [it], an index
    into [args] ([args.end()] is [length args]). *)
Record frame : Type := mkFrame {
  this : ProgramOptions;
  args : list string;
  it : nat
}.

(** [++it] *)
Definition advance (f : frame) : frame :=
  mkFrame (this f) (args f) (S (it f)).

(** [it = args.erase(it)]: the element under the iterator is removed and the
    iterator then designates the element that followed it, which now sits at
    the same index. *)
Definition erase (f : frame) : frame :=
  mkFrame (this f) (delete (it f) (args f)) (it f).

Definition with_this (f : frame) (o : ProgramOptions) : frame :=
  mkFrame o (args f) (it f).

(** The inner [for] loop with its [switch], from [argit] to [arg.end()]. *)
Fixpoint scan_bundle (argit : string) (o : ProgramOptions) : except ProgramOptions :=
  match argit with
  | EmptyString => Returned o
  | String c rest =>
      if decide (c = "h"%char) then scan_bundle rest (set_help o)
      else if decide (c = "v"%char) then scan_bundle rest (set_version o)
      else Thrown ("invalid option -" +:+ String c EmptyString)
  end.

(** [arg[0] == '-'], evaluated only when [arg] is not empty. *)
Definition starts_with_dash (arg : string) : bool :=
  match arg with
  | String c _ => bool_decide (c = "-"%char)
  | EmptyString => false
  end.

(** [argit = arg.begin(); ++argit] *)
Definition after_first (arg : string) : string :=
  match arg with
  | String _ rest => rest
  | EmptyString => EmptyString
  end.

(** How one iteration of the [while] loop ends. *)
Inductive control : Type :=
| Continue (f : frame)
| Break (f : frame)
| Throw (what : string).

(** The body of the [while] loop, with [arg = *it]. *)
Definition loop_body (f : frame) (arg : string) : control :=
  if decide (String.length arg = 0) then Continue (advance f)
  else if decide (arg = "--") then Break (erase f)
  else if decide (arg = "--help") then
    Continue (erase (with_this f (set_help (this f))))
  else if decide (arg = "--version") then
    Continue (erase (with_this f (set_version (this f))))
  else if bool_decide (1 < String.length arg) && starts_with_dash arg then
    match scan_bundle (after_first arg) (this f) with
    | Thrown what => Throw what
    | Returned o => Continue (erase (with_this f o))
    end
  else Continue (advance f).

(** The distance from [it] to [args.end()]. *)
Definition remaining (f : frame) : nat := length (args f) - it f.

Lemma remaining_advance (f : frame) (arg : string) :
  args f !! it f = Some arg → remaining (advance f) < remaining f.
Proof.
  intros H. apply lookup_lt_Some in H. unfold remaining. simpl. lia.
Qed.

Lemma remaining_erase (f : frame) (o : ProgramOptions) (arg : string) :
  args f !! it f = Some arg → remaining (erase (with_this f o)) < remaining f.
Proof.
  intros H. pose proof (lookup_lt_Some _ _ _ H) as Hlt.
  unfold remaining. simpl. rewrite length_delete by eauto. lia.
Qed.

Lemma loop_body_decreases (f f' : frame) (arg : string) :
  args f !! it f = Some arg →
  loop_body f arg = Continue f' →
  remaining f' < remaining f.
Proof.
  intros Hit. unfold loop_body.
  repeat case_decide;
    try destruct (_ && _); try destruct (scan_bundle _ _);
    intros [= <-]; eauto using remaining_advance, remaining_erase.
Qed.

(** [while (it != args.end()) { ... }].  The loop ends normally when the
    iterator reaches the end or on [break], and abnormally on [throw]. *)
Equations? scan_loop (f : frame) : except frame by wf (remaining f) lt :=
  scan_loop f with inspect (args f !! it f) := {
    | exist _ None _ => Returned f
    | exist _ (Some arg) Hit with inspect (loop_body f arg) := {
        | exist _ (Continue f') Hbody => scan_loop f'
        | exist _ (Break f') _ => Returned f'
        | exist _ (Throw what) _ => Thrown what } }.
Proof. eauto using loop_body_decreases. Qed.

(** [ProgramOptions::ProgramOptions(int argc, char** argv)].  [argv] is the
    argument vector and [args] is built from the range [argv + 1, argv + argc). *)
Definition ProgramOptions_ctor (argc : Z) (argv : list string) : except ProgramOptions :=
  if decide (argc < 1)%Z then Thrown "Really?"
  else
    let args0 := take (Z.to_nat (argc - 1)) (drop 1 argv) in
    match scan_loop (mkFrame (mkProgramOptions false false []) args0 0) with
    | Thrown what => Thrown what
    | Returned f => Returned (set_expressions (this f) (args f))
    end.

(** The constructor as the C runtime calls it: [argc] counts the entries of
    [argv], the program name included. *)
Definition construct (argv : list string) : except ProgramOptions :=
  ProgramOptions_ctor (Z.of_nat (length argv)) argv.

(** ** The world [main] runs in *)

Definition EXIT_SUCCESS : Z := 0.
Definition EXIT_FAILURE : Z := 1.

(** [std::endl] *)
Definition endl : string := String "010"%char EmptyString.

(** What [main.cpp] includes but does not define: the two version macros
    ([config.h] and the mruby headers) and the interpreter class [MRuby] of
    [mruby++.h].  An interpreter has a state; [eval] runs a piece of Ruby code
    in it and returns whether it succeeded, what the code wrote to standard
    output while it ran, and the state it left; [print_error] gives the text
    that [rb.print_error()] reports for the last error.  [wrap_prefix] and
    [wrap_suffix] are the fixed text of [ExpressionWrapper::wrap], see
    [ExpressionWrapper_wrap] below. *)
Class Runtime : Type := {
  PROJECT_VERSION : string;
  MRUBY_VERSION : string;
  mrb : Type;
  eval : string → mrb → bool * string * mrb;
  print_error : mrb → string;
  wrap_prefix : string;
  wrap_suffix : string
}.

(** What a run does, in the order it does it. *)
Inductive event : Type :=
| Cout (text : string)                        (* main writes to std::cout *)
| Cerr (text : string)                        (* main writes to std::cerr *)
| Eval (code : string) (ok : bool) (out : string)
                                              (* rb.eval(code) returned ok, the code wrote out *)
| PrintError (message : string).              (* rb.print_error() *)

Section Main.
Context `{Runtime}.

(** What [main] acts on: the interpreter, and the log of what has happened
    so far. *)
Record world : Type := mkWorld {
  rb : mrb;
  log : list event
}.

(** A statement of [main]: it may throw, and it changes the world. *)
Definition io (A : Type) : Type := world → except A * world.

#[local] Instance io_ret : MRet io := λ A a w, (Returned a, w).

#[local] Instance io_bind : MBind io := λ A B k c w,
  match c w with
  | (Thrown what, w') => (Thrown what, w')
  | (Returned a, w') => k a w'
  end.

(** [try { body } catch (const std::exception &ex) { handler }] *)
Definition try_catch {A : Type} (body : io A) (handler : string → io A) : io A :=
  λ w, match body w with
       | (Thrown what, w') => handler what w'
       | (Returned a, w') => (Returned a, w')
       end.

(** A call that has no effect on the world but may throw. *)
Definition call {A : Type} (r : except A) : io A := λ w, (r, w).

(** Append one event to the log. *)
Definition emit (e : event) : io unit :=
  λ w, (Returned (), mkWorld (rb w) (log w ++ [e])).

(** [rb.eval(code)] *)
Definition rb_eval (code : string) : io bool :=
  λ w, let '(ok, out, rb') := eval code (rb w) in
       (Returned ok, mkWorld rb' (log w ++ [Eval code ok out])).

(** [rb.print_error()] *)
Definition rb_print_error : io unit :=
  λ w, emit (PrintError (print_error (rb w))) w.

(** [print_version(stream)] *)
Definition print_version (stream : string → event) : io unit :=
  emit (stream ("rq " +:+ PROJECT_VERSION +:+ " (mruby " +:+ MRUBY_VERSION +:+ ")" +:+ endl)).

Definition usage : string :=
  "Usage: rq [options] [--] [EXPRESSION...]" +:+ endl +:+
  "  -v              print the version number" +:+ endl +:+
  "  -h              show this message".

(** [print_usage(stream)] *)
Definition print_usage (stream : string → event) : io unit :=
  emit (stream (usage +:+ endl)).

(** Modelled from the spec: [ExpressionWrapper::wrap], declared in
    [expressionwrapper.h], which is not among the sources.  The specification
    (section 4.3) gives it as pure, total and deterministic, "a fixed textual
    transformation applied identically to every expression, independent of
    its content (no parsing of the fragment's internal syntax)": the
    expression is put, as it is, between two fixed pieces of text, the call
    does not throw and leaves the world as it is.  The specification leaves
    the exact text open, so it is a parameter of the [Runtime]. *)
Definition ExpressionWrapper_wrap (expression : string) : io string :=
  mret (wrap_prefix +:+ expression +:+ wrap_suffix).

(** The text of the wrapped statement. *)
Definition wrapped (expression : string) : string :=
  wrap_prefix +:+ expression +:+ wrap_suffix.

Definition read_item : string := "item = JSON.parse(STDIN.read)".

Definition print_item : string :=
  "puts JSON.generate(item, pretty_print: true, indent_width: 2)".

(** [operator<<] on [size()] *)
Definition decimal (n : nat) : string := NilEmpty.string_of_uint (Nat.to_uint n).

(** [for (const auto& expr : opts.expressions) { ... }]; [Some code] when the
    body executed [return code], [None] when the loop ran to its end. *)
Fixpoint for_expressions (exprs : list string) : io (option Z) :=
  match exprs with
  | [] => mret None
  | expr :: exprs' =>
      wrapped_expr ← ExpressionWrapper_wrap expr;
      emit (Cout ("----> " +:+ wrapped_expr +:+ endl));;
      ok ← rb_eval wrapped_expr;
      if negb ok then
        emit (Cerr ("rq: expression " +:+ expr +:+ " failed to run:" +:+ endl));;
        rb_print_error;;
        mret (Some EXIT_FAILURE)
      else for_expressions exprs'
  end.

(** [int main(int argc, char** argv)] *)
Definition main (argc : Z) (argv : list string) : io Z :=
  try_catch
    (opts ← call (ProgramOptions_ctor argc argv);
     if help opts then
       print_usage Cout;;
       mret EXIT_SUCCESS
     else if version opts then
       print_version Cout;;
       mret EXIT_SUCCESS
     else
       emit (Cout ("reading from stdin" +:+ endl));;
       ok ← rb_eval read_item;
       if negb ok then
         emit (Cerr ("rq: read from stdin failed:" +:+ endl));;
         rb_print_error;;
         mret EXIT_FAILURE
       else
         emit (Cout ("running " +:+ decimal (length (expressions opts))
                     +:+ " expressions" +:+ endl));;
         returned ← for_expressions (expressions opts);
         match returned with
         | Some code => mret code
         | None =>
             emit (Cout ("printing item" +:+ endl));;
             ok ← rb_eval print_item;
             if negb ok then
               emit (Cerr ("rq: printing item failed" +:+ endl));;
               rb_print_error;;
               mret EXIT_FAILURE
             else mret EXIT_SUCCESS
         end)
    (λ what,
       emit (Cerr ("rq: " +:+ what +:+ endl +:+ endl));;
       print_usage Cerr;;
       mret EXIT_FAILURE).

(** A run of the program: [rb0] is the interpreter that [MRuby rb;] sets up,
    with the standard input it is going to read. *)
Definition run (argv : list string) (rb0 : mrb) : except Z * world :=
  main (Z.of_nat (length argv)) argv (mkWorld rb0 []).

End Main.

(** * What the properties are stated with *)

(** ** What a run shows *)

(** Everything that reached standard output, in order. *)
Fixpoint stdout (log : list event) : string :=
  match log with
  | [] => EmptyString
  | Cout text :: log' => text +:+ stdout log'
  | Eval _ _ out :: log' => out +:+ stdout log'
  | _ :: log' => stdout log'
  end.

(** The code handed to the interpreter, in order. *)
Fixpoint evaluated (log : list event) : list string :=
  match log with
  | [] => []
  | Eval code _ _ :: log' => code :: evaluated log'
  | _ :: log' => evaluated log'
  end.

(** The diagnostics of a run: what [main] wrote to [std::cerr] and what
    [print_error] reported. *)
Definition is_diagnostic (e : event) : bool :=
  match e with
  | Cerr _ | PrintError _ => true
  | _ => false
  end.

Definition diagnostics (log : list event) : list event := filter is_diagnostic log.

(** ** The scan as a filter

    The same cases as [loop_body], read over the tokens that the iterator has
    still to visit: a token is either dropped, or kept in front of what the
    rest of the scan keeps.  [scan_loop_filter] below shows that the
    erase-in-place loop computes exactly this. *)

Definition keep (t : string) (r : except (ProgramOptions * list string))
  : except (ProgramOptions * list string) :=
  match r with
  | Thrown what => Thrown what
  | Returned (o, kept) => Returned (o, t :: kept)
  end.

Fixpoint scan_filter (tokens : list string) (o : ProgramOptions)
  : except (ProgramOptions * list string) :=
  match tokens with
  | [] => Returned (o, [])
  | t :: rest =>
      if decide (String.length t = 0) then keep t (scan_filter rest o)
      else if decide (t = "--") then Returned (o, rest)
      else if decide (t = "--help") then scan_filter rest (set_help o)
      else if decide (t = "--version") then scan_filter rest (set_version o)
      else if bool_decide (1 < String.length t) && starts_with_dash t then
        match scan_bundle (after_first t) o with
        | Thrown what => Thrown what
        | Returned o' => scan_filter rest o'
        end
      else keep t (scan_filter rest o)
  end.

(** The result of the filter on the tokens from the iterator on, behind the
    tokens [before] that the iterator has passed and left in the vector. *)
Definition outcome (before : list string) (r : except (ProgramOptions * list string))
  : except (ProgramOptions * list string) :=
  match r with
  | Thrown what => Thrown what
  | Returned (o, kept) => Returned (o, before ++ kept)
  end.

(** What the constructor reads off the frame once the loop is over: the
    flags and the vector, not the iterator. *)
Definition frame_outcome (r : except frame) : except (ProgramOptions * list string) :=
  match r with
  | Thrown what => Thrown what
  | Returned f => Returned (this f, args f)
  end.

(** The options before the scan: [help = false], [version = false] and no
    expression. *)
Definition fresh : ProgramOptions := mkProgramOptions false false [].

(** ** Tokens, as the specification classifies them *)

(** The first character of a bundle that is neither [h] nor [v]. *)
Fixpoint first_invalid (s : string) : option ascii :=
  match s with
  | EmptyString => None
  | String c rest =>
      if decide (c = "h"%char) then first_invalid rest
      else if decide (c = "v"%char) then first_invalid rest
      else Some c
  end.

(** Whether the character [c] occurs in [s]. *)
Fixpoint has (c : ascii) (s : string) : bool :=
  match s with
  | EmptyString => false
  | String c' rest => bool_decide (c' = c) || has c rest
  end.

(** A token that looks like an option: longer than one character and
    starting with [-]. *)
Definition option_like (t : string) : bool :=
  bool_decide (1 < String.length t) && starts_with_dash t.

(** A positional token: not an option (the empty token, a lone [-], and every
    token that does not start with [-]). *)
Definition positional (t : string) : bool := negb (option_like t).

(** A bundle of short options: [-] followed by one or more of [h] and [v]. *)
Definition short_bundle (t : string) : bool :=
  option_like t && bool_decide (first_invalid (after_first t) = None).

(** A well-formed flag: [--help], [--version] or a bundle of short options. *)
Definition well_formed_flag (t : string) : bool :=
  bool_decide (t = "--help") || bool_decide (t = "--version") || short_bundle t.

(** The tokens that set [help], and those that set [version]. *)
Definition sets_help (t : string) : bool :=
  bool_decide (t = "--help") || (short_bundle t && has "h" (after_first t)).

Definition sets_version (t : string) : bool :=
  bool_decide (t = "--version") || (short_bundle t && has "v" (after_first t)).

(** A token the scan accepts in front of [--]. *)
Definition acceptable (t : string) : bool := positional t || well_formed_flag t.

(** The tokens in front of the first [--], which are the ones the scan
    classifies, and the tokens behind it. *)
Fixpoint scanned (tokens : list string) : list string :=
  match tokens with
  | [] => []
  | t :: rest => if decide (t = "--") then [] else t :: scanned rest
  end.

Fixpoint unscanned (tokens : list string) : list string :=
  match tokens with
  | [] => []
  | t :: rest => if decide (t = "--") then rest else unscanned rest
  end.

(** The tokens that survive the scan, in their original order. *)
Definition survivors (tokens : list string) : list string :=
  filter positional (scanned tokens) ++ unscanned tokens.

(** [o] with [help] raised when [h] holds and [version] raised when [v] holds. *)
Definition raise_flags (o : ProgramOptions) (h v : bool) : ProgramOptions :=
  mkProgramOptions (help o || h) (version o || v) (expressions o).

(** The character that the error message of a malformed bundle names. *)
Definition offending (t : string) : string :=
  match first_invalid (after_first t) with
  | Some c => String c EmptyString
  | None => EmptyString
  end.

(** ** Runs of the pipeline *)

Section Pipeline.
Context `{Runtime}.

(** What the [for] loop logs and the interpreter it leaves when every
    expression of [exprs] succeeds in its turn, from the interpreter [r]. *)
Fixpoint succeed (exprs : list string) (r : mrb) : option (list event * mrb) :=
  match exprs with
  | [] => Some ([], r)
  | expr :: exprs' =>
      let '(ok, out, r') := eval (wrapped expr) r in
      if ok then
        match succeed exprs' r' with
        | Some (events, r'') =>
            Some (Cout ("----> " +:+ wrapped expr +:+ endl)
                    :: Eval (wrapped expr) true out :: events, r'')
        | None => None
        end
      else None
  end.

(** What [main] logs from its start to the [for] loop. *)
Definition prologue (opts : ProgramOptions) (out0 : string) : list event :=
  [Cout ("reading from stdin" +:+ endl);
   Eval read_item true out0;
   Cout ("running " +:+ decimal (length (expressions opts)) +:+ " expressions" +:+ endl)].

(** The diagnostic of [main] for an expression that failed. *)
Definition expression_failed (expr : string) : event :=
  Cerr ("rq: expression " +:+ expr +:+ " failed to run:" +:+ endl).

(** What [main] logs when reading the item fails. *)
Definition read_failed (out0 : string) (rb1 : mrb) : list event :=
  [Cout ("reading from stdin" +:+ endl);
   Eval read_item false out0;
   Cerr ("rq: read from stdin failed:" +:+ endl);
   PrintError (print_error rb1)].

(** What [main] logs from the end of the [for] loop on. *)
Definition epilogue (ok : bool) (out : string) (rb3 : mrb) : list event :=
  [Cout ("printing item" +:+ endl); Eval print_item ok out]
  ++ (if ok then []
      else [Cerr ("rq: printing item failed" +:+ endl); PrintError (print_error rb3)]).

End Pipeline.

(** ** A small interpreter to run the pipeline on

    It keeps the text of standard input, the text of [item] and the message of
    the last error.  Reading the item fails on an empty input; printing it
    writes its text and a newline; the expression [raise] fails; the
    expression [item.reverse] reverses the text; every other statement
    succeeds and changes nothing. *)

Record toy_rb : Type := mkToy {
  toy_stdin : string;
  toy_item : string;
  toy_error : string
}.

Definition toy_wrap (expr : string) : string := "item = (" +:+ expr +:+ ")".

Definition toy_eval (code : string) (r : toy_rb) : bool * string * toy_rb :=
  if decide (code = read_item) then
    if decide (toy_stdin r = "") then
      (false, "", mkToy (toy_stdin r) (toy_item r) "JSON::ParserError")
    else (true, "", mkToy (toy_stdin r) (toy_stdin r) (toy_error r))
  else if decide (code = print_item) then (true, toy_item r +:+ endl, r)
  else if decide (code = toy_wrap "raise") then
    (false, "", mkToy (toy_stdin r) (toy_item r) "RuntimeError")
  else if decide (code = toy_wrap "item.reverse") then
    (true, "", mkToy (toy_stdin r) (String.rev (toy_item r)) (toy_error r))
  else (true, "", r).

Definition toy : Runtime := {|
  PROJECT_VERSION := "0.1.0";
  MRUBY_VERSION := "3.0.0";
  mrb := toy_rb;
  eval := toy_eval;
  print_error := toy_error;
  wrap_prefix := "item = (";
  wrap_suffix := ")"
|}.

(** The interpreter at the start of a run, with [input] on standard input. *)
Definition toy_start (input : string) : toy_rb := mkToy input "" "".

(** * Facts about the option scanner *)

(** The scanner on the argument sequences that the specification lists. *)

Example construct_nothing :
  construct ["rq"] = Returned (mkProgramOptions false false []).
Proof. reflexivity. Qed.

Example construct_help :
  construct ["rq"; "-h"] = Returned (mkProgramOptions true false [])
  ∧ construct ["rq"; "--help"] = Returned (mkProgramOptions true false [])
  ∧ construct ["rq"; "-vh"] = Returned (mkProgramOptions true true []).
Proof. repeat split; reflexivity. Qed.

Example construct_invalid : construct ["rq"; "-x"] = Thrown "invalid option -x".
Proof. reflexivity. Qed.

Example construct_lone_dash :
  construct ["rq"; "-"; "-v"; "a"] = Returned (mkProgramOptions false true ["-"; "a"]).
Proof. reflexivity. Qed.

Example construct_terminator :
  ProgramOptions_ctor 4 ["rq"; "--"; "-h"; "foo"]
  = Returned (mkProgramOptions false false ["-h"; "foo"]).
Proof. reflexivity. Qed.

Example construct_unknown_long_option :
  ProgramOptions_ctor 3 ["rq"; ""; "--foo"] = Thrown "invalid option --".
Proof. reflexivity. Qed.

Lemma scan_loop_eq (f : frame) :
  scan_loop f =
  match args f !! it f with
  | None => Returned f
  | Some arg =>
      match loop_body f arg with
      | Continue f' => scan_loop f'
      | Break f' => Returned f'
      | Throw what => Thrown what
      end
  end.
Proof.
  funelim (scan_loop f);
    repeat match goal with
      | H : ?x = _ |- context [match ?x with _ => _ end] => rewrite H
      end; reflexivity.
Qed.

Lemma outcome_keep (before : list string) (t : string)
    (r : except (ProgramOptions * list string)) :
  outcome (before ++ [t]) r = outcome before (keep t r).
Proof.
  destruct r as [what | [o kept]]; simpl; [reflexivity |].
  by rewrite <- app_assoc.
Qed.

(** Erasing in place under the iterator is filtering: with [before] the
    tokens the iterator has passed and left in the vector and [rest] the
    tokens from the iterator on, the loop keeps [before], followed by what
    [scan_filter] keeps of [rest]. *)
Lemma scan_loop_filter (rest before : list string) (o : ProgramOptions) :
  frame_outcome (scan_loop (mkFrame o (before ++ rest) (length before)))
  = outcome before (scan_filter rest o).
Proof.
  revert before o. induction rest as [| t rest IH]; intros before o.
  - rewrite scan_loop_eq. simpl.
    rewrite lookup_ge_None_2 by (rewrite length_app; simpl; lia).
    reflexivity.
  - assert (Hadv : ∀ o', mkFrame o' (before ++ t :: rest) (S (length before))
                     = mkFrame o' ((before ++ [t]) ++ rest) (length (before ++ [t]))).
    { intros o'. rewrite <- app_assoc, length_app. simpl. f_equal. lia. }
    rewrite scan_loop_eq. simpl.
    rewrite list_lookup_middle by reflexivity.
    unfold loop_body, advance, erase, with_this. simpl.
    rewrite delete_middle.
    repeat case_decide;
      try destruct (_ && _); try destruct (scan_bundle _ _) as [what | o'];
      rewrite ?Hadv, ?IH; auto using outcome_keep.
Qed.

Lemma construct_filter (prog : string) (tokens : list string) :
  construct (prog :: tokens) =
  match scan_filter tokens fresh with
  | Thrown what => Thrown what
  | Returned (o, kept) => Returned (set_expressions o kept)
  end.
Proof.
  unfold construct, ProgramOptions_ctor.
  case_decide as Hargc; [simpl in Hargc; lia |].
  replace (Z.to_nat (Z.of_nat (length (prog :: tokens)) - 1)) with (length tokens)
    by (simpl; lia).
  simpl drop. rewrite firstn_all.
  pose proof (scan_loop_filter tokens [] fresh) as H. simpl in H.
  fold fresh.
  destruct (scan_loop _) as [what | f]; destruct (scan_filter _ _) as [what' | [o kept]];
    simpl in H; congruence.
Qed.

Lemma scan_bundle_spec (s : string) (o : ProgramOptions) :
  scan_bundle s o =
  match first_invalid s with
  | Some c => Thrown ("invalid option -" +:+ String c EmptyString)
  | None =>
      Returned (mkProgramOptions (help o || has "h" s) (version o || has "v" s)
                  (expressions o))
  end.
Proof.
  revert o. induction s as [| c s IH]; intros o; simpl.
  - destruct o as [h v e]. simpl. by rewrite !orb_false_r.
  - destruct (decide (c = "h"%char)) as [-> | Hh];
      [| destruct (decide (c = "v"%char)) as [-> | Hv]]; rewrite ?IH.
    + destruct (first_invalid s); [reflexivity |]. simpl.
      by rewrite orb_true_r.
    + destruct (first_invalid s); [reflexivity |]. simpl.
      by rewrite orb_true_r.
    + reflexivity.
Qed.

Lemma raise_flags_none (o : ProgramOptions) : raise_flags o false false = o.
Proof. destruct o. unfold raise_flags. simpl. by rewrite !orb_false_r. Qed.

Lemma raise_flags_twice (o : ProgramOptions) (h v h' v' : bool) :
  raise_flags (raise_flags o h v) h' v' = raise_flags o (h || h') (v || v').
Proof. unfold raise_flags. simpl. by rewrite !orb_assoc. Qed.

Lemma length_zero_empty (t : string) : String.length t = 0 → t = EmptyString.
Proof. by destruct t. Qed.

(** One token of the scan, by the class of the token. *)
Lemma scan_filter_cons (t : string) (rest : list string) (o : ProgramOptions) :
  scan_filter (t :: rest) o =
  if decide (t = "--") then Returned (o, rest)
  else if positional t then keep t (scan_filter rest o)
  else if well_formed_flag t then
    scan_filter rest (raise_flags o (sets_help t) (sets_version t))
  else Thrown ("invalid option -" +:+ offending t).
Proof.
  simpl.
  destruct (decide (String.length t = 0)) as [Hlen | Hlen].
  { apply length_zero_empty in Hlen as ->. reflexivity. }
  destruct (decide (t = "--")) as [-> | Hdd]; [reflexivity |].
  destruct (decide (t = "--help")) as [-> | Hh].
  { unfold raise_flags, set_help. simpl. by rewrite orb_true_r, orb_false_r. }
  destruct (decide (t = "--version")) as [-> | Hv].
  { unfold raise_flags, set_version. simpl. by rewrite orb_true_r, orb_false_r. }
  unfold positional, well_formed_flag, sets_help, sets_version, short_bundle, offending.
  fold (option_like t).
  rewrite !(bool_decide_eq_false_2 (t = _)) by done.
  destruct (option_like t); simpl; [| reflexivity].
  rewrite scan_bundle_spec.
  destruct (first_invalid (after_first t)); reflexivity.
Qed.

Lemma survivors_cons (t : string) (rest : list string) :
  survivors (t :: rest) =
  if decide (t = "--") then rest
  else if positional t then t :: survivors rest
  else survivors rest.
Proof.
  unfold survivors. simpl. case_decide; [reflexivity |].
  rewrite filter_cons. by destruct (positional t).
Qed.

Lemma positional_sets_nothing (t : string) :
  positional t = true → sets_help t = false ∧ sets_version t = false.
Proof.
  unfold positional, sets_help, sets_version, short_bundle.
  destruct (option_like t) eqn:Hopt; [discriminate |]. intros _.
  split; (rewrite bool_decide_eq_false_2; [done | intros ->; by vm_compute in Hopt]).
Qed.

(** The scan succeeds exactly when every token in front of [--] is
    acceptable, and then it raises the flags that these tokens set and keeps
    the survivors. *)
Lemma scan_filter_ok (tokens : list string) (o : ProgramOptions) :
  forallb acceptable (scanned tokens) = true →
  scan_filter tokens o =
  Returned (raise_flags o (existsb sets_help (scanned tokens))
              (existsb sets_version (scanned tokens)),
            survivors tokens).
Proof.
  revert o. induction tokens as [| t rest IH]; intros o Hall.
  - simpl. by rewrite raise_flags_none.
  - rewrite scan_filter_cons, survivors_cons. simpl in *.
    destruct (decide (t = "--")) as [-> | Hdd]; simpl.
    { by rewrite raise_flags_none. }
    simpl in Hall. apply andb_prop in Hall as [Ht Hrest].
    destruct (positional t) eqn:Hpos.
    + destruct (positional_sets_nothing t Hpos) as [-> ->]. simpl.
      by rewrite IH.
    + unfold acceptable in Ht. rewrite Hpos in Ht. simpl in Ht. rewrite Ht.
      rewrite IH by done. by rewrite raise_flags_twice.
Qed.

Lemma scan_filter_returned (tokens : list string) (o o' : ProgramOptions)
    (kept : list string) :
  scan_filter tokens o = Returned (o', kept) →
  forallb acceptable (scanned tokens) = true.
Proof.
  revert o o' kept. induction tokens as [| t rest IH]; intros o o' kept; [done |].
  rewrite scan_filter_cons. simpl.
  destruct (decide (t = "--")) as [-> | Hdd]; [done |]. simpl.
  unfold acceptable at 1.
  destruct (positional t); simpl.
  - destruct (scan_filter rest o) as [| [o1 k1]] eqn:Hrest; [discriminate |].
    intros _. eauto.
  - destruct (well_formed_flag t); [| discriminate]. simpl. eauto.
Qed.

Lemma construct_ok (prog : string) (tokens : list string) :
  forallb acceptable (scanned tokens) = true →
  construct (prog :: tokens) =
  Returned (mkProgramOptions (existsb sets_help (scanned tokens))
              (existsb sets_version (scanned tokens)) (survivors tokens)).
Proof.
  intros Hall. rewrite construct_filter, (scan_filter_ok _ _ Hall). reflexivity.
Qed.

Lemma construct_returned (prog : string) (tokens : list string) (o : ProgramOptions) :
  construct (prog :: tokens) = Returned o →
  forallb acceptable (scanned tokens) = true.
Proof.
  rewrite construct_filter.
  destruct (scan_filter tokens fresh) as [| [o' kept]] eqn:Hscan; [discriminate |].
  intros _. eauto using scan_filter_returned.
Qed.

Lemma scanned_before_terminator (pre post : list string) :
  "--" ∉ pre →
  scanned (pre ++ "--" :: post) = pre ∧ unscanned (pre ++ "--" :: post) = post.
Proof.
  induction pre as [| t pre IH]; intros Hnot; [done |].
  apply not_elem_of_cons in Hnot as [Ht Hpre]. simpl.
  destruct (decide (t = "--")); [done |]. destruct (IH Hpre) as [H1 H2].
  by rewrite H1, H2.
Qed.

Lemma scanned_no_terminator (tokens : list string) :
  "--" ∉ tokens → scanned tokens = tokens ∧ unscanned tokens = [].
Proof.
  induction tokens as [| t rest IH]; intros Hnot; [done |].
  apply not_elem_of_cons in Hnot as [Ht Hrest]. simpl.
  destruct (decide (t = "--")); [done |]. destruct (IH Hrest) as [H1 H2].
  by rewrite H1, H2.
Qed.

Lemma scan_filter_empty_token (pre post : list string) (o : ProgramOptions) :
  match scan_filter (pre ++ post) o with
  | Thrown what => scan_filter (pre ++ "" :: post) o = Thrown what
  | Returned (o', kept) =>
      ∃ behind, kept = survivors pre ++ behind
        ∧ scan_filter (pre ++ "" :: post) o = Returned (o', survivors pre ++ "" :: behind)
  end.
Proof.
  revert o. induction pre as [| t pre IH]; intros o.
  - change (scan_filter ([] ++ "" :: post) o) with (keep "" (scan_filter post o)).
    simpl. destruct (scan_filter post o) as [| [o' kept]]; [done |].
    by exists kept.
  - rewrite <- !app_comm_cons, !scan_filter_cons, survivors_cons.
    destruct (decide (t = "--")); [by exists post |].
    destruct (positional t).
    + specialize (IH o).
      destruct (scan_filter (pre ++ post) o) as [| [o' kept]].
      * by rewrite IH.
      * destruct IH as (behind & -> & ->). by exists behind.
    + destruct (well_formed_flag t); [apply IH | done].
Qed.

Lemma well_formed_acceptable (tokens : list string) :
  Forall (λ t, well_formed_flag t = true ∨ positional t = true) tokens →
  ("--" ∉ tokens) ∧ forallb acceptable tokens = true.
Proof.
  intros Hwf. induction Hwf as [| t rest Ht _ [IHnot IHall]].
  { split; [apply not_elem_of_nil | done]. }
  split.
  - rewrite elem_of_cons. intros [<- | Hin]; [| exact (IHnot Hin)].
    by destruct Ht as [Ht | Ht]; vm_compute in Ht.
  - simpl. rewrite IHall, andb_true_r. unfold acceptable.
    destruct Ht as [-> | ->]; [apply orb_true_r | done].
Qed.

Lemma flags_and_positionals (tokens : list string) :
  Forall (λ t, well_formed_flag t = true ∨ positional t = true) tokens →
  tokens ≡ₚ filter well_formed_flag tokens ++ filter positional tokens.
Proof.
  intros Hwf. induction Hwf as [| t rest Ht _ IH]; [done |].
  rewrite !filter_cons.
  assert (Hflag : well_formed_flag t = true → positional t = false).
  { unfold well_formed_flag, short_bundle, positional.
    destruct (option_like t) eqn:Hopt; [done |].
    case_bool_decide; [subst; by vm_compute in Hopt |].
    case_bool_decide; [subst; by vm_compute in Hopt |]. done. }
  destruct (well_formed_flag t) eqn:Hwf.
  - rewrite (Hflag eq_refl). simpl. by f_equiv.
  - destruct Ht as [? | ->]; [done |]. simpl.
    rewrite <- Permutation_middle. by f_equiv.
Qed.

(** * Facts about [main] *)

(** [rq -h --version]: both flags are set, the usage text is printed and the
    version line is not. *)
Example help_before_version :
  run (H := toy) ["rq"; "-h"; "--version"] (toy_start "[1, 2]")
  = (Returned EXIT_SUCCESS,
     mkWorld (H := toy) (toy_start "[1, 2]") [Cout (usage +:+ endl)]).
Proof. reflexivity. Qed.

Example version_line :
  run (H := toy) ["rq"; "-v"] (toy_start "[1, 2]")
  = (Returned EXIT_SUCCESS,
     mkWorld (H := toy) (toy_start "[1, 2]")
       [Cout ("rq 0.1.0 (mruby 3.0.0)" +:+ endl)]).
Proof. reflexivity. Qed.

Example invalid_option_run :
  run (H := toy) ["rq"; "-x"] (toy_start "[1, 2]")
  = (Returned EXIT_FAILURE,
     mkWorld (H := toy) (toy_start "[1, 2]")
       [Cerr ("rq: invalid option -x" +:+ endl +:+ endl); Cerr (usage +:+ endl)]).
Proof. reflexivity. Qed.

Lemma append_assoc (s1 s2 s3 : string) : (s1 +:+ s2) +:+ s3 = s1 +:+ s2 +:+ s3.
Proof.
  induction s1 as [| c s1 IH]; [reflexivity |].
  change (String c ((s1 +:+ s2) +:+ s3) = String c (s1 +:+ s2 +:+ s3)).
  by f_equal.
Qed.

Lemma append_empty_r (s : string) : s +:+ "" = s.
Proof.
  induction s as [| c s IH]; [reflexivity |].
  change (String c (s +:+ "") = String c s). by f_equal.
Qed.

Lemma stdout_app (l1 l2 : list event) : stdout (l1 ++ l2) = stdout l1 +:+ stdout l2.
Proof.
  induction l1 as [| e l1 IH]; [done |].
  destruct e; simpl; rewrite IH; auto using append_assoc.
Qed.

Lemma evaluated_app (l1 l2 : list event) :
  evaluated (l1 ++ l2) = evaluated l1 ++ evaluated l2.
Proof.
  induction l1 as [| e l1 IH]; [done |].
  destruct e; simpl; by rewrite IH.
Qed.

Section PipelineFacts.
Context `{Runtime}.

Ltac io_unfold :=
  unfold mbind, io_bind, mret, io_ret, emit, rb_eval, rb_print_error,
    ExpressionWrapper_wrap, call, try_catch, print_usage, print_version; simpl.

Lemma succeed_evaluated (exprs : list string) (r r' : mrb) (events : list event) :
  succeed exprs r = Some (events, r') → evaluated events = map wrapped exprs.
Proof.
  revert r events. induction exprs as [| e exprs IH]; intros r events; simpl.
  - by intros [= <- _].
  - destruct (eval (wrapped e) r) as [[[|] out] r1]; [| done].
    destruct (succeed exprs r1) as [[events1 r2] |] eqn:Hrest; [| done].
    intros [= <- ->]. simpl. f_equal. eauto.
Qed.

Lemma succeed_diagnostics (exprs : list string) (r r' : mrb) (events : list event) :
  succeed exprs r = Some (events, r') → diagnostics events = [].
Proof.
  revert r events. induction exprs as [| e exprs IH]; intros r events; simpl.
  - by intros [= <- _].
  - destruct (eval (wrapped e) r) as [[[|] out] r1]; [| done].
    destruct (succeed exprs r1) as [[events1 r2] |] eqn:Hrest; [| done].
    intros [= <- ->]. unfold diagnostics. rewrite !filter_cons. simpl. eapply IH, Hrest.
Qed.

(** The loop over expressions that all succeed runs to its end. *)
Lemma for_expressions_succeed (exprs : list string) (w : world)
    (events : list event) (r' : mrb) :
  succeed exprs (rb w) = Some (events, r') →
  for_expressions exprs w = (Returned None, mkWorld r' (log w ++ events)).
Proof.
  revert w events. induction exprs as [| e exprs IH]; intros w events; simpl.
  - intros [= <- <-]. io_unfold. destruct w. simpl. by rewrite app_nil_r.
  - io_unfold. fold (wrapped e).
    destruct (eval (wrapped e) _) as [[[|] out] r1]; [| done]. simpl.
    destruct (succeed exprs r1) as [[events1 r2] |] eqn:Hrest; [| done].
    intros [= <- <-]. erewrite IH by exact Hrest. simpl.
    by rewrite <- !app_assoc.
Qed.

(** The loop returns from [main] at the first expression that fails. *)
Lemma for_expressions_fail (pre post : list string) (e : string) (w : world)
    (events : list event) (r2 r3 : mrb) (out : string) :
  succeed pre (rb w) = Some (events, r2) →
  eval (wrapped e) r2 = (false, out, r3) →
  for_expressions (pre ++ e :: post) w =
  (Returned (Some EXIT_FAILURE),
   mkWorld r3 (log w ++ events ++
     [Cout ("----> " +:+ wrapped e +:+ endl); Eval (wrapped e) false out;
      expression_failed e; PrintError (print_error r3)])).
Proof.
  revert w events. induction pre as [| e' pre IH]; intros w events; simpl.
  - intros [= <- <-] Hfail. io_unfold. fold (wrapped e). rewrite Hfail. simpl.
    by rewrite <- !app_assoc.
  - io_unfold. fold (wrapped e').
    destruct (eval (wrapped e') _) as [[[|] out'] r1]; [| done]. simpl.
    destruct (succeed pre r1) as [[events1 r2'] |] eqn:Hrest; [| done].
    intros [= <- <-] Hfail. erewrite IH by eauto. simpl.
    by rewrite <- !app_assoc.
Qed.

End PipelineFacts.

Section MainFacts.
Context `{Runtime}.

Ltac main_unfold :=
  unfold main, mbind, io_bind, mret, io_ret, emit, rb_eval, rb_print_error,
    call, try_catch, print_usage, print_version; simpl.

Lemma main_read_fails (argc : Z) (argv : list string) (opts : ProgramOptions)
    (w : world) (out0 : string) (rb1 : mrb) :
  ProgramOptions_ctor argc argv = Returned opts →
  help opts = false → version opts = false →
  eval read_item (rb w) = (false, out0, rb1) →
  main argc argv w = (Returned EXIT_FAILURE, mkWorld rb1 (log w ++ read_failed out0 rb1)).
Proof.
  intros Hctor Hhelp Hversion Hread. main_unfold.
  rewrite Hctor, Hhelp, Hversion, Hread. simpl.
  by rewrite <- !app_assoc.
Qed.

Lemma main_expression_fails (argc : Z) (argv : list string) (opts : ProgramOptions)
    (w : world) (out0 out : string) (rb1 r2 r3 : mrb)
    (pre post : list string) (e : string) (events : list event) :
  ProgramOptions_ctor argc argv = Returned opts →
  help opts = false → version opts = false →
  eval read_item (rb w) = (true, out0, rb1) →
  expressions opts = pre ++ e :: post →
  succeed pre rb1 = Some (events, r2) →
  eval (wrapped e) r2 = (false, out, r3) →
  main argc argv w =
  (Returned EXIT_FAILURE,
   mkWorld r3 (log w ++ prologue opts out0 ++ events ++
     [Cout ("----> " +:+ wrapped e +:+ endl); Eval (wrapped e) false out;
      expression_failed e; PrintError (print_error r3)])).
Proof.
  intros Hctor Hhelp Hversion Hread Hexprs Hpre Hfail. main_unfold.
  rewrite Hctor, Hhelp, Hversion, Hread. simpl.
  pose proof (for_expressions_fail pre post e
    (mkWorld rb1 (log w ++ prologue opts out0)) events r2 r3 out Hpre Hfail) as Hfor.
  rewrite <- Hexprs in Hfor. unfold prologue in *. simpl in Hfor.
  rewrite <- !app_assoc. simpl. rewrite Hfor. simpl.
  by rewrite <- !app_assoc.
Qed.

Lemma main_all_succeed (argc : Z) (argv : list string) (opts : ProgramOptions)
    (w : world) (out0 out : string) (rb1 r2 r3 : mrb) (ok : bool)
    (events : list event) :
  ProgramOptions_ctor argc argv = Returned opts →
  help opts = false → version opts = false →
  eval read_item (rb w) = (true, out0, rb1) →
  succeed (expressions opts) rb1 = Some (events, r2) →
  eval print_item r2 = (ok, out, r3) →
  main argc argv w =
  (Returned (if ok then EXIT_SUCCESS else EXIT_FAILURE),
   mkWorld r3 (log w ++ prologue opts out0 ++ events ++ epilogue ok out r3)).
Proof.
  intros Hctor Hhelp Hversion Hread Hall Hprint. main_unfold.
  rewrite Hctor, Hhelp, Hversion, Hread. simpl.
  erewrite for_expressions_succeed by (simpl; eauto). simpl.
  rewrite Hprint. unfold prologue, epilogue.
  destruct ok; simpl; by rewrite <- !app_assoc.
Qed.

(** The loop over the expressions does not throw. *)
Lemma for_expressions_returns (exprs : list string) (w : world) :
  ∃ returned w', for_expressions exprs w = (Returned returned, w')
    ∧ (returned = None ∨ returned = Some EXIT_FAILURE).
Proof.
  revert w. induction exprs as [| e exprs IH]; intros w; simpl.
  - exists None, w. by split; [| left].
  - main_unfold. unfold ExpressionWrapper_wrap, mret, io_ret.
    destruct (eval _ (rb w)) as [[[|] out] r1]; simpl.
    + apply IH.
    + eexists _, _. by split; [| right].
Qed.

(** [main] catches what the constructor throws: every run returns an exit
    code, [EXIT_SUCCESS] or [EXIT_FAILURE]. *)
Lemma main_returns (argc : Z) (argv : list string) (w : world) :
  ∃ code w', main argc argv w = (Returned code, w')
    ∧ (code = EXIT_SUCCESS ∨ code = EXIT_FAILURE).
Proof.
  main_unfold.
  destruct (ProgramOptions_ctor argc argv) as [what | opts]; simpl.
  { eexists _, _. by split; [| right]. }
  destruct (help opts); simpl; [eexists _, _; by split; [| left] |].
  destruct (version opts); simpl; [eexists _, _; by split; [| left] |].
  destruct (eval read_item (rb w)) as [[[|] out0] rb1]; simpl;
    [| eexists _, _; by split; [| right]].
  match goal with
  | |- context [for_expressions ?l ?w0] =>
      destruct (for_expressions_returns l w0) as (returned & w1 & -> & [-> | ->])
  end; simpl; [| eexists _, _; by split; [| right]].
  destruct (eval print_item (rb w1)) as [[[|] out] r3]; simpl.
  - eexists _, _. by split; [| left].
  - eexists _, _. by split; [| right].
Qed.

End MainFacts.

Lemma scan_filter_malformed (pre post : list string) (t : string) (c : ascii)
    (o : ProgramOptions) :
  "--" ∉ pre →
  forallb acceptable pre = true →
  option_like t = true →
  t ≠ "--" → t ≠ "--help" → t ≠ "--version" →
  first_invalid (after_first t) = Some c →
  scan_filter (pre ++ t :: post) o = Thrown ("invalid option -" +:+ String c EmptyString).
Proof.
  intros Hnot Hall Hopt Hdd Hh Hv Hc. revert o Hnot Hall.
  induction pre as [| p pre IH]; intros o Hnot Hall.
  - simpl app. rewrite scan_filter_cons, decide_False by done.
    unfold positional, well_formed_flag, short_bundle, offending.
    rewrite Hopt, Hc. simpl.
    by rewrite !(bool_decide_eq_false_2 (t = _)) by done.
  - apply not_elem_of_cons in Hnot as [Hp Hpre].
    simpl in Hall. apply andb_prop in Hall as [Hpok Hall].
    rewrite <- app_comm_cons, scan_filter_cons, decide_False by done.
    unfold acceptable in Hpok.
    destruct (positional p); [by rewrite IH |].
    simpl in Hpok. rewrite Hpok. by apply IH.
Qed.

Lemma raise_flags_swap (o : ProgramOptions) (h v h' v' : bool) :
  raise_flags (raise_flags o h v) h' v' = raise_flags (raise_flags o h' v') h v.
Proof. rewrite !raise_flags_twice. by rewrite (orb_comm h), (orb_comm v). Qed.

Lemma scan_filter_flag_first (pre post : list string) (t : string) (o : ProgramOptions) :
  "--" ∉ pre →
  well_formed_flag t = true →
  scan_filter (pre ++ t :: post) o = scan_filter (t :: pre ++ post) o.
Proof.
  intros Hnot Hflag.
  assert (Ht : ∀ rest o', scan_filter (t :: rest) o'
                          = scan_filter rest (raise_flags o' (sets_help t) (sets_version t))).
  { intros rest o'. rewrite scan_filter_cons.
    destruct (decide (t = "--")) as [-> | _]; [by vm_compute in Hflag |].
    destruct (positional t) eqn:Hpos; [| by rewrite Hflag].
    unfold well_formed_flag, short_bundle, positional in *.
    destruct (option_like t) eqn:Hopt; [done |].
    rewrite orb_false_r in Hflag. apply orb_prop in Hflag as [Hf | Hf];
      apply bool_decide_eq_true_1 in Hf; subst; by vm_compute in Hopt. }
  revert o Hnot. induction pre as [| p pre IH]; intros o Hnot; [done |].
  apply not_elem_of_cons in Hnot as [Hp Hpre].
  rewrite Ht, <- !app_comm_cons, !scan_filter_cons, !decide_False by done.
  destruct (positional p); [by rewrite IH, Ht |].
  destruct (well_formed_flag p); [| done].
  by rewrite IH, Ht, raise_flags_swap.
Qed.

(** Flags that are raised before the scan can as well be raised after it. *)
Definition raise_result (h v : bool) (r : except (ProgramOptions * list string))
  : except (ProgramOptions * list string) :=
  match r with
  | Thrown what => Thrown what
  | Returned (o, kept) => Returned (raise_flags o h v, kept)
  end.

Lemma scan_filter_raise (tokens : list string) (o : ProgramOptions) (h v : bool) :
  scan_filter tokens (raise_flags o h v) = raise_result h v (scan_filter tokens o).
Proof.
  revert o. induction tokens as [| t rest IH]; intros o; [done |].
  rewrite !scan_filter_cons.
  destruct (decide (t = "--")); [done |].
  destruct (positional t).
  - rewrite IH. by destruct (scan_filter rest o) as [| [o' kept]].
  - destruct (well_formed_flag t); [| done].
    by rewrite raise_flags_swap, IH.
Qed.

(** * The properties of the option scanner *)

(** C1, as the code has it: an empty token sets no flag and causes no error,
    and it is not erased.  The scan of an argument sequence with an empty
    token in it fails exactly when the scan of the sequence without that token
    fails, with the same message; when it succeeds the flags are the same and
    the empty token sits in [expressions], right behind the survivors of the
    tokens in front of it. *)
Theorem empty_token_left_in_place (prog : string) (pre post : list string) :
  match construct (prog :: pre ++ post) with
  | Thrown what => construct (prog :: pre ++ "" :: post) = Thrown what
  | Returned o =>
      ∃ behind, expressions o = survivors pre ++ behind
        ∧ construct (prog :: pre ++ "" :: post)
          = Returned (set_expressions o (survivors pre ++ "" :: behind))
  end.
Proof.
  rewrite !construct_filter.
  pose proof (scan_filter_empty_token pre post fresh) as Hscan.
  destruct (scan_filter (pre ++ post) fresh) as [what | [o kept]].
  - by rewrite Hscan.
  - destruct Hscan as (behind & -> & ->). by exists behind.
Qed.

(** C1 as it is stated does not hold: the empty token of [rq ""] is in
    [expressions]. *)
Lemma empty_token_is_an_expression :
  ¬ (∀ (argv : list string) (o : ProgramOptions),
       construct argv = Returned o → "" ∉ expressions o).
Proof.
  intros Hclaim.
  apply (Hclaim ["rq"; ""] (mkProgramOptions false false [""])).
  - reflexivity.
  - simpl. apply list_elem_of_here.
Qed.

(** C4: a token longer than one character that starts with [-] and is none
    of [--], [--help] and [--version], reached by the scan (the tokens [pre]
    in front of it hold no [--] and scan without error, to the options [o]),
    is read character by character behind its first [-].  The first character
    that is neither [h] nor [v] ends the scan with the error that names it,
    whatever follows.  When there is none, the token is dropped, [help] is set
    if an [h] is among its characters and [version] if a [v] is: the command
    line gives what it gives without the token, with these flags raised, and
    with the token last it gives [o] with these flags raised.  A token that
    starts with [--] fails on its second [-]. *)
Theorem bundle_scanned_by_character (prog : string) (pre post : list string)
    (t : string) (o : ProgramOptions) :
  "--" ∉ pre →
  construct (prog :: pre) = Returned o →
  1 < String.length t →
  starts_with_dash t = true →
  t ≠ "--" → t ≠ "--help" → t ≠ "--version" →
  match first_invalid (after_first t) with
  | Some c =>
      construct (prog :: pre ++ t :: post)
      = Thrown ("invalid option -" +:+ String c EmptyString)
  | None =>
      construct (prog :: pre ++ t :: post)
      = match construct (prog :: pre ++ post) with
        | Thrown what => Thrown what
        | Returned o' =>
            Returned (raise_flags o' (has "h" (after_first t)) (has "v" (after_first t)))
        end
      ∧ construct (prog :: pre ++ [t])
        = Returned (raise_flags o (has "h" (after_first t)) (has "v" (after_first t)))
  end
  ∧ (∀ rest, t = "--" +:+ rest →
       construct (prog :: pre ++ t :: post) = Thrown "invalid option --").
Proof.
  intros Hnot Hpre Hlen Hdash Hdd Hh Hv.
  assert (Hopt : option_like t = true).
  { unfold option_like. by rewrite bool_decide_eq_true_2, Hdash. }
  assert (Hall : forallb acceptable pre = true).
  { pose proof (construct_returned _ _ _ Hpre) as Hall.
    by destruct (scanned_no_terminator pre Hnot) as [<- _]. }
  assert (Hthrow : ∀ c, first_invalid (after_first t) = Some c →
            construct (prog :: pre ++ t :: post)
            = Thrown ("invalid option -" +:+ String c EmptyString)).
  { intros c Hc. rewrite construct_filter.
    by rewrite (scan_filter_malformed pre post t c). }
  assert (Hdrop : first_invalid (after_first t) = None → ∀ post',
            construct (prog :: pre ++ t :: post')
            = match construct (prog :: pre ++ post') with
              | Thrown what => Thrown what
              | Returned o' =>
                  Returned (raise_flags o' (has "h" (after_first t))
                              (has "v" (after_first t)))
              end).
  { intros Hnone post'.
    assert (Hbundle : short_bundle t = true).
    { unfold short_bundle. by rewrite Hopt, Hnone. }
    assert (Hflag : well_formed_flag t = true).
    { unfold well_formed_flag. rewrite Hbundle. apply orb_true_r. }
    rewrite !construct_filter, scan_filter_flag_first by done.
    rewrite scan_filter_cons, decide_False by done.
    unfold positional. rewrite Hopt, Hflag. simpl.
    unfold sets_help, sets_version.
    rewrite Hbundle, !(bool_decide_eq_false_2 (t = _)) by done. simpl.
    rewrite scan_filter_raise.
    by destruct (scan_filter (pre ++ post') fresh) as [| [o' kept]]. }
  split.
  - destruct (first_invalid (after_first t)) as [c |] eqn:Hc; [by apply Hthrow |].
    split; [by apply Hdrop |].
    rewrite (Hdrop eq_refl []), app_nil_r. by rewrite Hpre.
  - intros rest ->. by apply (Hthrow "-"%char).
Qed.

Lemma bundle_scanned_by_character_witness :
  construct ("rq" :: ["a"; "-v"] ++ "-hh" :: ["b"; "-v"; "--"; "-x"])
  = Returned (mkProgramOptions true true ["a"; "b"; "-x"])
  ∧ construct ("rq" :: ["a"; "-v"] ++ ["-hh"])
    = Returned (mkProgramOptions true true ["a"])
  ∧ construct ("rq" :: ["-h"; "a"] ++ "-vx" :: ["b"]) = Thrown "invalid option -x"
  ∧ construct ("rq" :: ["a"] ++ "--foo" :: ["-h"]) = Thrown "invalid option --".
Proof.
  assert (Hnot2 : ∀ x y : string, x ≠ "--" → y ≠ "--" → "--" ∉ [x; y]).
  { intros x y Hx Hy. rewrite !elem_of_cons, elem_of_nil. by intros [? | [? | ?]]. }
  assert (Hnot1 : ∀ x : string, x ≠ "--" → "--" ∉ [x]).
  { intros x Hx. rewrite !elem_of_cons, elem_of_nil. by intros [? | ?]. }
  pose proof (bundle_scanned_by_character "rq" ["a"; "-v"] ["b"; "-v"; "--"; "-x"] "-hh"
                (mkProgramOptions false true ["a"])
                (Hnot2 "a" "-v" ltac:(discriminate) ltac:(discriminate)) eq_refl
                ltac:(simpl; lia) eq_refl ltac:(discriminate) ltac:(discriminate)
                ltac:(discriminate)) as [[Hdrop Hlast] _].
  pose proof (bundle_scanned_by_character "rq" ["-h"; "a"] ["b"] "-vx"
                (mkProgramOptions true false ["a"])
                (Hnot2 "-h" "a" ltac:(discriminate) ltac:(discriminate)) eq_refl
                ltac:(simpl; lia) eq_refl ltac:(discriminate) ltac:(discriminate)
                ltac:(discriminate)) as [Hbad _].
  pose proof (bundle_scanned_by_character "rq" ["a"] ["-h"] "--foo"
                (mkProgramOptions false false ["a"])
                (Hnot1 "a" ltac:(discriminate)) eq_refl
                ltac:(simpl; lia) eq_refl ltac:(discriminate) ltac:(discriminate)
                ltac:(discriminate)) as [_ Hlong].
  split; [exact Hdrop |]. split; [exact Hlast |]. split; [exact Hbad |].
  exact (Hlong "foo" eq_refl).
Defined.

(** C6: when the scan gets to a [--] (the tokens [pre] in front of it hold no
    [--] and scan without error, to the options [o]), the [--] is dropped and
    the tokens [post] behind it go into [expressions] as they are, behind the
    survivors of [pre], with the flags as [pre] set them.  In particular
    [rq -- -h foo] has the expressions [-h] and [foo] and [help] unset. *)
Theorem terminator_ends_option_scanning :
  (∀ (prog : string) (pre post : list string) (o : ProgramOptions),
     "--" ∉ pre →
     construct (prog :: pre) = Returned o →
     construct (prog :: pre ++ "--" :: post)
     = Returned (set_expressions o (expressions o ++ post)))
  ∧ (∀ prog : string,
       construct [prog; "--"; "-h"; "foo"]
       = Returned (mkProgramOptions false false ["-h"; "foo"])).
Proof.
  split.
  - intros prog pre post o Hnot Hpre.
    pose proof (construct_returned _ _ _ Hpre) as Hall.
    destruct (scanned_no_terminator pre Hnot) as [Hs Hu].
    destruct (scanned_before_terminator pre post Hnot) as [Hs' Hu'].
    rewrite construct_ok in Hpre by done. injection Hpre as <-.
    rewrite construct_ok by (rewrite Hs'; by rewrite Hs in Hall).
    unfold survivors, set_expressions. simpl.
    by rewrite Hs, Hu, Hs', Hu', app_nil_r.
  - intros prog. by rewrite construct_ok.
Qed.

Lemma terminator_ends_option_scanning_witness :
  construct ["rq"; "-v"; "a"; "--"; "-h"; "--"; ""]
  = Returned (mkProgramOptions false true ["a"; "-h"; "--"; ""]).
Proof.
  refine (proj1 terminator_ends_option_scanning "rq" ["-v"; "a"] ["-h"; "--"; ""]
            (mkProgramOptions false true ["a"]) _ _).
  - by rewrite !elem_of_cons, elem_of_nil; intros [? | [? | ?]].
  - reflexivity.
Defined.

(** C7: an argument sequence of well-formed flags and positional tokens only
    scans without error; [expressions] is the sequence of its positional
    tokens, in their original order; the tokens are the flags and the
    expressions together, none lost and none twice; and [help] and [version]
    are set exactly by the flags that set them. *)
Theorem flags_and_expressions_partition (prog : string) (tokens : list string) :
  Forall (λ t, well_formed_flag t = true ∨ positional t = true) tokens →
  ∃ o, construct (prog :: tokens) = Returned o
    ∧ expressions o = filter positional tokens
    ∧ tokens ≡ₚ filter well_formed_flag tokens ++ expressions o
    ∧ help o = existsb sets_help (filter well_formed_flag tokens)
    ∧ version o = existsb sets_version (filter well_formed_flag tokens).
Proof.
  intros Hwf.
  destruct (well_formed_acceptable tokens Hwf) as [Hnot Hall].
  destruct (scanned_no_terminator tokens Hnot) as [Hs Hu].
  eexists. split; [apply construct_ok; by rewrite Hs |].
  unfold survivors. simpl. rewrite Hs, Hu, app_nil_r.
  split_and!; [done | by apply flags_and_positionals | |].
  - clear -Hwf. induction Hwf as [| t rest Ht _ IH]; [done |].
    rewrite filter_cons. simpl. destruct (well_formed_flag t) eqn:Hf; simpl.
    + by rewrite IH.
    + destruct Ht as [? | Ht]; [congruence |].
      by destruct (positional_sets_nothing t Ht) as [-> _].
  - clear -Hwf. induction Hwf as [| t rest Ht _ IH]; [done |].
    rewrite filter_cons. simpl. destruct (well_formed_flag t) eqn:Hf; simpl.
    + by rewrite IH.
    + destruct Ht as [? | Ht]; [congruence |].
      by destruct (positional_sets_nothing t Ht) as [_ ->].
Qed.

Lemma flags_and_expressions_partition_witness :
  ∃ o, construct ["rq"; "-hv"; "a"; ""; "--version"; "-"; "b"] = Returned o
    ∧ expressions o = filter positional ["-hv"; "a"; ""; "--version"; "-"; "b"]
    ∧ ["-hv"; "a"; ""; "--version"; "-"; "b"]
      ≡ₚ filter well_formed_flag ["-hv"; "a"; ""; "--version"; "-"; "b"] ++ expressions o
    ∧ help o
      = existsb sets_help (filter well_formed_flag ["-hv"; "a"; ""; "--version"; "-"; "b"])
    ∧ version o
      = existsb sets_version (filter well_formed_flag ["-hv"; "a"; ""; "--version"; "-"; "b"]).
Proof.
  apply (flags_and_expressions_partition "rq" ["-hv"; "a"; ""; "--version"; "-"; "b"]).
  repeat (constructor; [first [left; reflexivity | right; reflexivity] |]).
  constructor.
Defined.

(** C10: an iteration of the scan that does not throw leaves a flag that is
    set as it is: [help] and [version] are only ever raised.  Hence, after a
    scan without error, [help] is set exactly when one of the scanned tokens
    (the tokens in front of the first [--]) sets it, and so is [version]. *)
Theorem flags_only_raised :
  (∀ (f f' : frame) (arg : string),
     loop_body f arg = Continue f' ∨ loop_body f arg = Break f' →
     (help (this f') = help (this f) ∨ help (this f') = true)
     ∧ (version (this f') = version (this f) ∨ version (this f') = true))
  ∧ (∀ (prog : string) (tokens : list string) (o : ProgramOptions),
       construct (prog :: tokens) = Returned o →
       (help o = true ↔ ∃ t, t ∈ scanned tokens ∧ sets_help t = true)
       ∧ (version o = true ↔ ∃ t, t ∈ scanned tokens ∧ sets_version t = true)).
Proof.
  split.
  - intros f f' arg. unfold loop_body.
    destruct (decide (String.length arg = 0)); [intros [[= <-] | [=]]; auto |].
    destruct (decide (arg = "--")); [intros [[=] | [= <-]]; auto |].
    destruct (decide (arg = "--help")); [intros [[= <-] | [=]]; auto |].
    destruct (decide (arg = "--version")); [intros [[= <-] | [=]]; auto |].
    destruct (_ && _); [| intros [[= <-] | [=]]; auto].
    rewrite scan_bundle_spec. destruct (first_invalid _); [intros [[=] | [=]] |].
    intros [[= <-] | [=]]. simpl.
    destruct (help (this f)), (version (this f)), (has "h" _), (has "v" _); auto.
  - intros prog tokens o Hctor.
    pose proof (construct_returned _ _ _ Hctor) as Hall.
    rewrite construct_ok in Hctor by done. injection Hctor as <-. simpl.
    rewrite !existsb_exists. by setoid_rewrite list_elem_of_In.
Qed.

Lemma flags_only_raised_witness :
  (help (mkProgramOptions true false ["a"; "-v"]) = true
   ↔ ∃ t, t ∈ scanned ["-h"; "a"; "--"; "-v"] ∧ sets_help t = true)
  ∧ (version (mkProgramOptions true false ["a"; "-v"]) = true
     ↔ ∃ t, t ∈ scanned ["-h"; "a"; "--"; "-v"] ∧ sets_version t = true).
Proof.
  refine (proj2 flags_only_raised "rq" ["-h"; "a"; "--"; "-v"]
            (mkProgramOptions true false ["a"; "-v"]) _).
  reflexivity.
Defined.

(** * The properties of [main] *)

(** C2 as it is stated does not hold: [rq] with no expression, on the input
    [[1, 2]], succeeds, and standard output holds three progress lines in
    front of the document. *)
Lemma progress_lines_on_stdout :
  ∃ w, run (H := toy) ["rq"] (toy_start "[1, 2]") = (Returned EXIT_SUCCESS, w)
    ∧ last (log w) = Some (Eval print_item true ("[1, 2]" +:+ endl))
    ∧ stdout (log w)
      = "reading from stdin" +:+ endl +:+ "running 0 expressions" +:+ endl
        +:+ "printing item" +:+ endl +:+ "[1, 2]" +:+ endl
    ∧ stdout (log w) ≠ "[1, 2]" +:+ endl.
Proof.
  eexists. split; [reflexivity |]. split; [reflexivity |]. split; [reflexivity |].
  discriminate.
Qed.

(** C2, as the code has it: when the arguments parse, the item is read, every
    expression succeeds and the item is printed, [main] returns
    [EXIT_SUCCESS]; the statement that prints the item is evaluated last,
    after every expression, and what it writes ends standard output.  In front
    of it standard output holds the lines [reading from stdin],
    [running n expressions], one line [----> statement] for each expression,
    and [printing item], with whatever the evaluated code writes in
    between. *)
Theorem document_printed_last `{Runtime} (argc : Z) (argv : list string)
    (opts : ProgramOptions) (rb0 rb1 r2 r3 : mrb) (out0 out : string)
    (events : list event) :
  ProgramOptions_ctor argc argv = Returned opts →
  help opts = false → version opts = false →
  eval read_item rb0 = (true, out0, rb1) →
  succeed (expressions opts) rb1 = Some (events, r2) →
  eval print_item r2 = (true, out, r3) →
  ∃ w', main argc argv (mkWorld rb0 []) = (Returned EXIT_SUCCESS, w')
    ∧ log w' = prologue opts out0 ++ events
               ++ [Cout ("printing item" +:+ endl); Eval print_item true out]
    ∧ evaluated (log w') = read_item :: map wrapped (expressions opts) ++ [print_item]
    ∧ stdout (log w')
      = ("reading from stdin" +:+ endl) +:+ out0
        +:+ ("running " +:+ decimal (length (expressions opts)) +:+ " expressions" +:+ endl)
        +:+ stdout events +:+ ("printing item" +:+ endl) +:+ out.
Proof.
  intros Hctor Hhelp Hversion Hread Hall Hprint.
  rewrite (main_all_succeed argc argv opts (mkWorld rb0 []) out0 out rb1 r2 r3
             true events) by done.
  eexists. split; [reflexivity |].
  simpl. split; [reflexivity |]. split.
  - rewrite evaluated_app. simpl. by rewrite (succeed_evaluated _ _ _ _ Hall).
  - rewrite stdout_app. simpl. by rewrite append_empty_r.
Qed.

Lemma document_printed_last_witness :
  ∃ w', main 3 ["rq"; "item.reverse"; "item"] (mkWorld (H := toy) (toy_start "[1, 2]") [])
        = (Returned EXIT_SUCCESS, w')
    ∧ log w'
      = prologue (mkProgramOptions false false ["item.reverse"; "item"]) ""
        ++ [Cout ("----> " +:+ toy_wrap "item.reverse" +:+ endl);
            Eval (toy_wrap "item.reverse") true "";
            Cout ("----> " +:+ toy_wrap "item" +:+ endl);
            Eval (toy_wrap "item") true ""]
        ++ [Cout ("printing item" +:+ endl); Eval print_item true ("]2 ,1[" +:+ endl)]
    ∧ evaluated (log w')
      = read_item :: map (wrapped (H := toy)) ["item.reverse"; "item"] ++ [print_item]
    ∧ stdout (log w')
      = ("reading from stdin" +:+ endl) +:+ ""
        +:+ ("running " +:+ decimal 2 +:+ " expressions" +:+ endl)
        +:+ (("----> " +:+ toy_wrap "item.reverse" +:+ endl)
             +:+ ("----> " +:+ toy_wrap "item" +:+ endl))
        +:+ ("printing item" +:+ endl) +:+ "]2 ,1[" +:+ endl.
Proof.
  apply (document_printed_last (H := toy) 3 ["rq"; "item.reverse"; "item"]
           (mkProgramOptions false false ["item.reverse"; "item"])
           (toy_start "[1, 2]") (mkToy "[1, 2]" "[1, 2]" "")
           (mkToy "[1, 2]" "]2 ,1[" "") (mkToy "[1, 2]" "]2 ,1[" "")
           "" ("]2 ,1[" +:+ endl));
    reflexivity.
Defined.

(** C3 as it is stated does not hold: the diagnostics do not tell the index of
    the expression that failed.  [rq raise] fails at expression 0 and
    [rq item raise] at expression 1, with the same diagnostics, so no reading
    of the diagnostics gives the index of every failure. *)
Lemma failing_index_not_reported :
  ¬ ∃ index_of : list event → nat,
      ∀ (argv : list string) (opts : ProgramOptions) (pre post : list string)
        (e out0 out : string) (rb0 rb1 r2 r3 : toy_rb) (events : list event),
        construct argv = Returned opts →
        help opts = false → version opts = false →
        toy_eval read_item rb0 = (true, out0, rb1) →
        expressions opts = pre ++ e :: post →
        succeed (H := toy) pre rb1 = Some (events, r2) →
        toy_eval (toy_wrap e) r2 = (false, out, r3) →
        index_of (diagnostics (log (snd (run (H := toy) argv rb0)))) = length pre.
Proof.
  intros [index_of Hclaim].
  pose proof (Hclaim ["rq"; "raise"] (mkProgramOptions false false ["raise"])
                [] [] "raise" "" "" (toy_start "[1, 2]")
                (mkToy "[1, 2]" "[1, 2]" "") (mkToy "[1, 2]" "[1, 2]" "")
                (mkToy "[1, 2]" "[1, 2]" "RuntimeError") []
                eq_refl eq_refl eq_refl eq_refl eq_refl eq_refl eq_refl) as H0.
  pose proof (Hclaim ["rq"; "item"; "raise"]
                (mkProgramOptions false false ["item"; "raise"])
                ["item"] [] "raise" "" "" (toy_start "[1, 2]")
                (mkToy "[1, 2]" "[1, 2]" "") (mkToy "[1, 2]" "[1, 2]" "")
                (mkToy "[1, 2]" "[1, 2]" "RuntimeError") _
                eq_refl eq_refl eq_refl eq_refl eq_refl eq_refl eq_refl) as H1.
  vm_compute in H0, H1. congruence.
Qed.

(** C3, as the code has it: when an expression fails (those in front of it
    having succeeded), [main] returns [EXIT_FAILURE] and its diagnostics are
    the line that names the expression by its source text, followed by the
    error that the interpreter reports.  The index is not part of them. *)
Theorem failed_expression_named_by_text `{Runtime} (argc : Z) (argv : list string)
    (opts : ProgramOptions) (pre post : list string) (e out0 out : string)
    (rb0 rb1 r2 r3 : mrb) (events : list event) :
  ProgramOptions_ctor argc argv = Returned opts →
  help opts = false → version opts = false →
  eval read_item rb0 = (true, out0, rb1) →
  expressions opts = pre ++ e :: post →
  succeed pre rb1 = Some (events, r2) →
  eval (wrapped e) r2 = (false, out, r3) →
  ∃ w', main argc argv (mkWorld rb0 []) = (Returned EXIT_FAILURE, w')
    ∧ rb w' = r3
    ∧ diagnostics (log w')
      = [Cerr ("rq: expression " +:+ e +:+ " failed to run:" +:+ endl);
         PrintError (print_error r3)].
Proof.
  intros Hctor Hhelp Hversion Hread Hexprs Hpre Hfail.
  rewrite (main_expression_fails argc argv opts (mkWorld rb0 []) out0 out rb1 r2 r3
             pre post e events) by done.
  eexists. split; [reflexivity |]. split; [reflexivity |]. simpl.
  unfold diagnostics. rewrite !filter_cons, filter_app. simpl.
  fold (diagnostics events). by rewrite (succeed_diagnostics _ _ _ _ Hpre).
Qed.

Lemma failed_expression_named_by_text_witness :
  ∃ w', main 4 ["rq"; "item"; "raise"; "item.reverse"]
          (mkWorld (H := toy) (toy_start "[1, 2]") [])
        = (Returned EXIT_FAILURE, w')
    ∧ rb w' = mkToy "[1, 2]" "[1, 2]" "RuntimeError"
    ∧ diagnostics (log w')
      = [Cerr ("rq: expression " +:+ "raise" +:+ " failed to run:" +:+ endl);
         PrintError "RuntimeError"].
Proof.
  apply (failed_expression_named_by_text (H := toy) 4
           ["rq"; "item"; "raise"; "item.reverse"]
           (mkProgramOptions false false ["item"; "raise"; "item.reverse"])
           ["item"] ["item.reverse"] "raise" "" ""
           (toy_start "[1, 2]") (mkToy "[1, 2]" "[1, 2]" "")
           (mkToy "[1, 2]" "[1, 2]" "") (mkToy "[1, 2]" "[1, 2]" "RuntimeError")
           [Cout ("----> " +:+ toy_wrap "item" +:+ endl); Eval (toy_wrap "item") true ""]);
    reflexivity.
Defined.

(** C5: when reading the item fails, [main] returns [EXIT_FAILURE] and the
    only code it has evaluated is the statement that reads the item; when an
    expression fails (those in front of it having succeeded), [main] returns
    [EXIT_FAILURE] and the code it has evaluated is the statement that reads
    the item and the expressions up to the failing one: no expression behind
    it, and not the statement that prints the item. *)
Theorem first_failure_aborts `{Runtime} (argc : Z) (argv : list string)
    (opts : ProgramOptions) (rb0 : mrb) :
  ProgramOptions_ctor argc argv = Returned opts →
  help opts = false → version opts = false →
  EXIT_FAILURE ≠ 0%Z
  ∧ (∀ (out0 : string) (rb1 : mrb),
       eval read_item rb0 = (false, out0, rb1) →
       ∃ w', main argc argv (mkWorld rb0 []) = (Returned EXIT_FAILURE, w')
         ∧ evaluated (log w') = [read_item])
  ∧ (∀ (pre post : list string) (e out0 out : string) (rb1 r2 r3 : mrb)
       (events : list event),
       eval read_item rb0 = (true, out0, rb1) →
       expressions opts = pre ++ e :: post →
       succeed pre rb1 = Some (events, r2) →
       eval (wrapped e) r2 = (false, out, r3) →
       ∃ w', main argc argv (mkWorld rb0 []) = (Returned EXIT_FAILURE, w')
         ∧ evaluated (log w') = read_item :: map wrapped pre ++ [wrapped e]
         ∧ last (log w') = Some (PrintError (print_error r3))).
Proof.
  intros Hctor Hhelp Hversion. split; [done |]. split.
  - intros out0 rb1 Hread.
    rewrite (main_read_fails argc argv opts (mkWorld rb0 []) out0 rb1) by done.
    eexists. split; reflexivity.
  - intros pre post e out0 out rb1 r2 r3 events Hread Hexprs Hpre Hfail.
    rewrite (main_expression_fails argc argv opts (mkWorld rb0 []) out0 out rb1 r2 r3
               pre post e events) by done.
    eexists. split; [reflexivity |]. simpl. split.
    + rewrite evaluated_app. simpl. by rewrite (succeed_evaluated _ _ _ _ Hpre).
    + by rewrite app_comm_cons, last_app_cons.
Qed.

Lemma first_failure_aborts_witness :
  (∃ w', main 4 ["rq"; "item"; "raise"; "item.reverse"]
           (mkWorld (H := toy) (toy_start "[1, 2]") [])
         = (Returned EXIT_FAILURE, w')
     ∧ evaluated (log w')
       = read_item :: map (wrapped (H := toy)) ["item"] ++ [toy_wrap "raise"]
     ∧ last (log w') = Some (PrintError "RuntimeError"))
  ∧ (∃ w', main 2 ["rq"; "item"] (mkWorld (H := toy) (toy_start "") [])
           = (Returned EXIT_FAILURE, w')
       ∧ evaluated (log w') = [read_item]).
Proof.
  split.
  - refine (proj2 (proj2 (first_failure_aborts (H := toy) 4
                            ["rq"; "item"; "raise"; "item.reverse"]
                            (mkProgramOptions false false ["item"; "raise"; "item.reverse"])
                            (toy_start "[1, 2]") _ _ _))
              ["item"] ["item.reverse"] "raise" "" ""
              (mkToy "[1, 2]" "[1, 2]" "") (mkToy "[1, 2]" "[1, 2]" "")
              (mkToy "[1, 2]" "[1, 2]" "RuntimeError")
              [Cout ("----> " +:+ toy_wrap "item" +:+ endl); Eval (toy_wrap "item") true ""]
              _ _ _ _);
      reflexivity.
  - refine (proj1 (proj2 (first_failure_aborts (H := toy) 2 ["rq"; "item"]
                            (mkProgramOptions false false ["item"])
                            (toy_start "") _ _ _))
              "" (mkToy "" "" "JSON::ParserError") _);
      reflexivity.
Defined.

(** C8: a call of [wrap] returns a statement, it does not throw and it leaves
    the world as it is; the statement is the same in every world, so two calls
    on the same text give the same statement. *)
Theorem wrap_pure_total_deterministic `{Runtime} (expression : string) (w : world) :
  ∃ statement,
    ExpressionWrapper_wrap expression w = (Returned statement, w)
    ∧ ∀ w' : world, ExpressionWrapper_wrap expression w' = (Returned statement, w').
Proof. by exists (wrapped expression). Qed.

(** C9: with [argc < 1] the constructor throws [Really?] whatever [argv]
    holds; [main] catches it, writes the message and the usage text to
    standard error, evaluates nothing and returns [EXIT_FAILURE]. *)
Theorem no_program_name_is_an_error `{Runtime} (argc : Z) (argv : list string)
    (w : world) :
  (argc < 1)%Z →
  ProgramOptions_ctor argc argv = Thrown "Really?"
  ∧ main argc argv w
    = (Returned EXIT_FAILURE,
       mkWorld (rb w)
         (log w ++ [Cerr ("rq: " +:+ "Really?" +:+ endl +:+ endl); Cerr (usage +:+ endl)]))
  ∧ EXIT_FAILURE ≠ 0%Z.
Proof.
  intros Hargc.
  assert (Hctor : ProgramOptions_ctor argc argv = Thrown "Really?").
  { unfold ProgramOptions_ctor. by rewrite decide_True. }
  split; [done |]. split; [| done].
  unfold main, try_catch, mbind, io_bind, call. rewrite Hctor.
  unfold mret, io_ret, print_usage, emit. simpl. by rewrite <- app_assoc.
Qed.

Lemma no_program_name_is_an_error_witness :
  ProgramOptions_ctor 0 [] = Thrown "Really?"
  ∧ main 0 [] (mkWorld (H := toy) (toy_start "[1, 2]") [])
    = (Returned EXIT_FAILURE,
       mkWorld (H := toy) (toy_start "[1, 2]")
         [Cerr ("rq: " +:+ "Really?" +:+ endl +:+ endl); Cerr (usage +:+ endl)])
  ∧ EXIT_FAILURE ≠ 0%Z.
Proof.
  apply (no_program_name_is_an_error (H := toy) 0 []
           (mkWorld (H := toy) (toy_start "[1, 2]") [])).
  reflexivity.
Defined.

(** * Further properties of the option scanner *)

(** [argv[0]], the program name, is never looked at: the vector [args] starts
    at [argv + 1].  A program name that reads like an option has no effect. *)
Theorem program_name_ignored (prog prog' : string) (tokens : list string) :
  construct (prog :: tokens) = construct (prog' :: tokens).
Proof. by rewrite !construct_filter. Qed.

(** The constructor reads the entries [argv[1]] to [argv[argc - 1]] and none
    behind them. *)
Theorem entries_behind_argc_ignored (argc : Z) (argv : list string) :
  (1 ≤ argc)%Z → (argc ≤ Z.of_nat (length argv))%Z →
  ProgramOptions_ctor argc argv = construct (take (Z.to_nat argc) argv).
Proof.
  intros Hlow Hhigh. unfold construct.
  rewrite length_take_le by lia. rewrite Z2Nat.id by lia.
  assert (Hargs : take (Z.to_nat (argc - 1)) (drop 1 (take (Z.to_nat argc) argv))
                  = take (Z.to_nat (argc - 1)) (drop 1 argv)).
  { replace (Z.to_nat argc) with (1 + Z.to_nat (argc - 1)) by lia.
    by rewrite <- take_drop_commute, take_idemp. }
  unfold ProgramOptions_ctor. by rewrite Hargs.
Qed.

Lemma entries_behind_argc_ignored_witness :
  ProgramOptions_ctor 3 ["rq"; "-v"; "a"; "-x"; "--help"]
  = construct (take (Z.to_nat 3) ["rq"; "-v"; "a"; "-x"; "--help"]).
Proof.
  apply (entries_behind_argc_ignored 3 ["rq"; "-v"; "a"; "-x"; "--help"]);
    simpl; lia.
Defined.

(** The scan in closed form.  It succeeds exactly when every token in front of
    the first [--] is positional or a well-formed flag; then [help] and
    [version] are set by the flags among these tokens, and [expressions] is
    the positional tokens among them, in order, followed by everything behind
    the [--]. *)
Theorem scan_closed_form (prog : string) (tokens : list string) (o : ProgramOptions) :
  construct (prog :: tokens) = Returned o
  ↔ forallb acceptable (scanned tokens) = true
    ∧ o = mkProgramOptions (existsb sets_help (scanned tokens))
            (existsb sets_version (scanned tokens))
            (filter positional (scanned tokens) ++ unscanned tokens).
Proof.
  split.
  - intros Hctor. pose proof (construct_returned _ _ _ Hctor) as Hall.
    rewrite construct_ok in Hctor by done. by injection Hctor as <-.
  - intros [Hall ->]. by rewrite construct_ok.
Qed.

(** The first token in front of any [--] that looks like an option and is not
    a well-formed flag ends the scan, whatever follows it and whatever flags
    the tokens in front of it have set: the constructor throws
    [invalid option -c], with [c] the first character of that token, behind
    its first [-], that is neither [h] nor [v]. *)
Theorem first_malformed_option_thrown (prog : string) (pre post : list string)
    (t : string) (c : ascii) :
  "--" ∉ pre →
  forallb acceptable pre = true →
  option_like t = true →
  t ≠ "--" → t ≠ "--help" → t ≠ "--version" →
  first_invalid (after_first t) = Some c →
  construct (prog :: pre ++ t :: post)
  = Thrown ("invalid option -" +:+ String c EmptyString).
Proof.
  intros. rewrite construct_filter.
  by rewrite (scan_filter_malformed pre post t c).
Qed.

Lemma first_malformed_option_thrown_witness :
  construct ("rq" :: ["a"; "-h"] ++ "-vq-" :: ["--"; "-x"])
  = Thrown ("invalid option -" +:+ String "q"%char EmptyString).
Proof.
  apply (first_malformed_option_thrown "rq" ["a"; "-h"] ["--"; "-x"] "-vq-" "q"%char);
    [ by rewrite !elem_of_cons, elem_of_nil; intros [? | [? | ?]]
    | reflexivity | reflexivity | discriminate | discriminate | discriminate
    | reflexivity ].
Defined.

Lemma survivors_sublist (tokens : list string) : survivors tokens `sublist_of` tokens.
Proof.
  induction tokens as [| t rest IH]; [constructor |].
  rewrite survivors_cons. destruct (decide (t = "--")).
  - by apply sublist_cons.
  - destruct (positional t); [by apply sublist_skip | by apply sublist_cons].
Qed.

(** The scan makes nothing up and moves nothing: after a scan without error
    [expressions] is a subsequence of the tokens, so every expression is one
    of the arguments, they come in the order of the command line, and there
    are no more of them than there are tokens. *)
Theorem expressions_subsequence_of_tokens (prog : string) (tokens : list string)
    (o : ProgramOptions) :
  construct (prog :: tokens) = Returned o →
  expressions o `sublist_of` tokens
  ∧ (length (expressions o) ≤ length tokens)%nat.
Proof.
  intros Hctor. pose proof (construct_returned _ _ _ Hctor) as Hall.
  rewrite construct_ok in Hctor by done. injection Hctor as <-. simpl.
  split; [apply survivors_sublist |].
  apply sublist_length, survivors_sublist.
Qed.

Lemma expressions_subsequence_of_tokens_witness :
  expressions (mkProgramOptions true false ["a"; ""; "-v"; "b"])
    `sublist_of` ["a"; "-h"; ""; "--"; "-v"; "b"]
  ∧ (length (expressions (mkProgramOptions true false ["a"; ""; "-v"; "b"]))
     ≤ length ["a"; "-h"; ""; "--"; "-v"; "b"])%nat.
Proof.
  apply (expressions_subsequence_of_tokens "rq" ["a"; "-h"; ""; "--"; "-v"; "b"]
           (mkProgramOptions true false ["a"; ""; "-v"; "b"])).
  reflexivity.
Defined.

(** Flags may stand anywhere in front of [--]: moving a well-formed flag from
    between the other tokens to the front of the command line changes neither
    the flags, nor the expressions, nor the error. *)
Theorem flag_position_irrelevant (prog : string) (pre post : list string) (t : string) :
  "--" ∉ pre →
  well_formed_flag t = true →
  construct (prog :: pre ++ t :: post) = construct (prog :: t :: pre ++ post).
Proof.
  intros Hnot Hflag. rewrite !construct_filter.
  by rewrite (scan_filter_flag_first pre post t).
Qed.

Lemma flag_position_irrelevant_witness :
  construct ("rq" :: ["a"; "-v"; "b"] ++ "-h" :: ["c"; "--"; "-x"])
  = construct ("rq" :: "-h" :: ["a"; "-v"; "b"] ++ ["c"; "--"; "-x"]).
Proof.
  apply (flag_position_irrelevant "rq" ["a"; "-v"; "b"] ["c"; "--"; "-x"] "-h").
  - by rewrite !elem_of_cons, elem_of_nil; intros [? | [? | [? | ?]]].
  - reflexivity.
Defined.

Lemma scan_filter_terminator (pre post : list string) (o : ProgramOptions) :
  "--" ∉ pre →
  scan_filter (pre ++ "--" :: post) o =
  match scan_filter pre o with
  | Thrown what => Thrown what
  | Returned (o', kept) => Returned (o', kept ++ post)
  end.
Proof.
  revert o. induction pre as [| p pre IH]; intros o Hnot; [done |].
  apply not_elem_of_cons in Hnot as [Hp Hpre].
  rewrite <- app_comm_cons, !scan_filter_cons, !decide_False by done.
  destruct (positional p).
  - rewrite IH by done. by destruct (scan_filter pre o) as [| [o' kept]].
  - destruct (well_formed_flag p); [by apply IH | done].
Qed.

(** What stands behind [--] cannot make the scan fail, and cannot repair it:
    with a [--] and any tokens appended to them, the tokens [pre] throw exactly
    the error that they throw on their own. *)
Theorem tokens_behind_terminator_not_checked (prog : string) (pre post : list string)
    (what : string) :
  "--" ∉ pre →
  construct (prog :: pre ++ "--" :: post) = Thrown what
  ↔ construct (prog :: pre) = Thrown what.
Proof.
  intros Hnot. rewrite !construct_filter, scan_filter_terminator by done.
  by destruct (scan_filter pre fresh) as [what' | [o kept]].
Qed.

Lemma tokens_behind_terminator_not_checked_witness :
  construct ("rq" :: ["a"; "-hz"] ++ "--" :: ["-h"; "b"]) = Thrown "invalid option -z"
  ↔ construct ("rq" :: ["a"; "-hz"]) = Thrown "invalid option -z".
Proof.
  apply (tokens_behind_terminator_not_checked "rq" ["a"; "-hz"] ["-h"; "b"]).
  by rewrite !elem_of_cons, elem_of_nil; intros [? | [? | ?]].
Defined.

(** ** The iterator *)

(** The iterator is inside the vector or at its end, and every token it has
    passed is a positional one. *)
Definition iterator_in_range (f : frame) : Prop :=
  (it f ≤ length (args f))%nat
  ∧ Forall (λ t, positional t = true) (take (it f) (args f)).

Lemma loop_body_in_range (f f' : frame) (arg : string) :
  args f !! it f = Some arg →
  iterator_in_range f →
  loop_body f arg = Continue f' ∨ loop_body f arg = Break f' →
  iterator_in_range f'.
Proof.
  intros Hit [Hle Hpassed].
  pose proof (lookup_lt_Some _ _ _ Hit) as Hlt.
  assert (Hadvance : positional arg = true → iterator_in_range (advance f)).
  { intros Hpos. split; simpl; [lia |].
    rewrite (take_S_r _ _ _ Hit). apply Forall_app. split; [done |].
    by constructor. }
  assert (Herase : ∀ o, iterator_in_range (erase (with_this f o))).
  { intros o. split; simpl.
    - rewrite length_delete by eauto. lia.
    - rewrite delete_take_drop, take_app_le by (rewrite length_take; lia).
      by rewrite take_idemp. }
  unfold loop_body.
  destruct (decide (String.length arg = 0)) as [Hlen | Hlen].
  { intros [[= <-] | [=]]. apply Hadvance. unfold positional, option_like.
    rewrite bool_decide_eq_false_2 by lia. done. }
  destruct (decide (arg = "--")); [intros [[=] | [= <-]]; apply (Herase (this f)) |].
  destruct (decide (arg = "--help")); [intros [[= <-] | [=]]; apply Herase |].
  destruct (decide (arg = "--version")); [intros [[= <-] | [=]]; apply Herase |].
  destruct (_ && _) eqn:Hopt.
  - destruct (scan_bundle _ _); intros [[= <-] | [=]]. apply Herase.
  - intros [[= <-] | [=]]. apply Hadvance. unfold positional, option_like.
    by rewrite Hopt.
Qed.

(** The loop keeps the iterator in range, so [*it] and [args.erase(it)] are
    only ever applied to an iterator that designates an element: from a frame
    whose iterator is in range (as the first one is, at [args.begin()]), the
    frame the loop ends in has its iterator in range too, and the tokens it
    has passed and left in the vector are all positional. *)
Theorem iterator_stays_in_range (f f' : frame) :
  iterator_in_range f →
  scan_loop f = Returned f' →
  iterator_in_range f'.
Proof.
  remember (remaining f) as n eqn:Hn. revert f Hn.
  induction n as [n IH] using lt_wf_ind. intros f -> Hin.
  rewrite scan_loop_eq.
  destruct (args f !! it f) as [arg |] eqn:Hit; [| by intros [= <-]].
  destruct (loop_body f arg) as [f1 | f1 | what] eqn:Hbody; [| | done].
  - apply (IH (remaining f1)); eauto using loop_body_decreases, loop_body_in_range.
  - intros [= <-]. eauto using loop_body_in_range.
Qed.

Lemma iterator_stays_in_range_witness :
  iterator_in_range (mkFrame (mkProgramOptions true false []) ["a"; ""; "-x"; "b"] 2).
Proof.
  apply (iterator_stays_in_range (mkFrame fresh ["a"; "-h"; ""; "--"; "-x"; "b"] 0)).
  - split; [simpl; lia | constructor].
  - reflexivity.
Defined.

(** * Further properties of [main] *)

Section MainCases.
Context `{Runtime}.

Ltac run_unfold :=
  unfold main, mbind, io_bind, mret, io_ret, emit, rb_eval, rb_print_error,
    call, try_catch, print_usage, print_version, ExpressionWrapper_wrap; simpl.

Lemma main_throws (argc : Z) (argv : list string) (what : string) (w : world) :
  ProgramOptions_ctor argc argv = Thrown what →
  main argc argv w =
  (Returned EXIT_FAILURE,
   mkWorld (rb w)
     (log w ++ [Cerr ("rq: " +:+ what +:+ endl +:+ endl); Cerr (usage +:+ endl)])).
Proof. intros Hctor. run_unfold. rewrite Hctor. simpl. by rewrite <- app_assoc. Qed.

Lemma main_help (argc : Z) (argv : list string) (opts : ProgramOptions) (w : world) :
  ProgramOptions_ctor argc argv = Returned opts →
  help opts = true →
  main argc argv w = (Returned EXIT_SUCCESS, mkWorld (rb w) (log w ++ [Cout (usage +:+ endl)])).
Proof. intros Hctor Hhelp. run_unfold. by rewrite Hctor, Hhelp. Qed.

Lemma main_version (argc : Z) (argv : list string) (opts : ProgramOptions) (w : world) :
  ProgramOptions_ctor argc argv = Returned opts →
  help opts = false → version opts = true →
  main argc argv w =
  (Returned EXIT_SUCCESS,
   mkWorld (rb w)
     (log w ++ [Cout ("rq " +:+ PROJECT_VERSION +:+ " (mruby " +:+ MRUBY_VERSION
                      +:+ ")" +:+ endl)])).
Proof. intros Hctor Hhelp Hversion. run_unfold. by rewrite Hctor, Hhelp, Hversion. Qed.

(** When not every expression succeeds, one of them is the first to fail. *)
Lemma succeed_none (exprs : list string) (r : mrb) :
  succeed exprs r = None →
  ∃ pre e post events r2 out r3,
    exprs = pre ++ e :: post
    ∧ succeed pre r = Some (events, r2)
    ∧ eval (wrapped e) r2 = (false, out, r3).
Proof.
  revert r. induction exprs as [| e exprs IH]; intros r; simpl; [done |].
  destruct (eval (wrapped e) r) as [[[|] out] r1] eqn:Heval.
  - destruct (succeed exprs r1) as [[events1 r2] |] eqn:Hrest; [done |].
    intros _. destruct (IH r1 Hrest) as (pre & e' & post & events & r2 & out' & r3 & -> & Hpre & Hfail).
    exists (e :: pre), e', post. simpl. rewrite Heval, Hpre. eauto 10.
  - intros _. exists [], e, exprs. simpl. eauto 10.
Qed.

(** How a run ends, by its diagnostics: none and [EXIT_SUCCESS], or
    [EXIT_FAILURE] with the message of one of the four failures. *)
Lemma main_diagnostics (argc : Z) (argv : list string) (rb0 : mrb) :
  ∃ code w', main argc argv (mkWorld rb0 []) = (Returned code, w')
    ∧ ((code = EXIT_SUCCESS ∧ diagnostics (log w') = [])
       ∨ (code = EXIT_FAILURE
          ∧ ((∃ what, diagnostics (log w')
                      = [Cerr ("rq: " +:+ what +:+ endl +:+ endl); Cerr (usage +:+ endl)])
             ∨ (∃ detail text,
                  diagnostics (log w') = [Cerr ("rq: " +:+ text); PrintError detail])))).
Proof.
  destruct (ProgramOptions_ctor argc argv) as [what | opts] eqn:Hctor.
  { rewrite (main_throws _ _ _ _ Hctor). eexists _, _. split; [done |].
    right. split; [done |]. left. by exists what. }
  destruct (help opts) eqn:Hhelp.
  { rewrite (main_help _ _ _ _ Hctor Hhelp). eexists _, _. split; [done |]. by left. }
  destruct (version opts) eqn:Hversion.
  { rewrite (main_version _ _ _ _ Hctor Hhelp Hversion). eexists _, _.
    split; [done |]. by left. }
  destruct (eval read_item rb0) as [[[|] out0] rb1] eqn:Hread.
  2:{ rewrite (main_read_fails argc argv opts (mkWorld rb0 []) out0 rb1) by done.
      eexists _, _. split; [done |]. right. split; [done |]. right.
      by exists (print_error rb1), ("read from stdin failed:" +:+ endl). }
  destruct (succeed (expressions opts) rb1) as [[events r2] |] eqn:Hall.
  - destruct (eval print_item r2) as [[ok out] r3] eqn:Hprint.
    rewrite (main_all_succeed argc argv opts (mkWorld rb0 []) out0 out rb1 r2 r3
               ok events) by done.
    eexists _, _. split; [done |]. simpl.
    unfold diagnostics. rewrite !filter_cons, filter_app. simpl.
    fold (diagnostics events). rewrite (succeed_diagnostics _ _ _ _ Hall).
    destruct ok; simpl; [by left |].
    right. split; [done |]. right.
    by exists (print_error r3), ("printing item failed" +:+ endl).
  - destruct (succeed_none _ _ Hall)
      as (pre & e & post & events & r2 & out & r3 & Hexprs & Hpre & Hfail).
    rewrite (main_expression_fails argc argv opts (mkWorld rb0 []) out0 out rb1 r2 r3
               pre post e events) by done.
    eexists _, _. split; [done |]. simpl.
    unfold diagnostics. rewrite !filter_cons, filter_app. simpl.
    fold (diagnostics events). rewrite (succeed_diagnostics _ _ _ _ Hpre).
    right. split; [done |]. right.
    by exists (print_error r3), ("expression " +:+ e +:+ " failed to run:" +:+ endl).
Qed.

End MainCases.

(** A flag for help anywhere in front of [--] wins over everything else on a
    command line whose options are well formed: the usage text goes to
    standard output, nothing is evaluated (standard input is not read, no
    expression runs, a version flag is not honoured), nothing goes to standard
    error, and [main] returns [EXIT_SUCCESS]. *)
Theorem help_wins `{Runtime} (prog : string) (tokens : list string) (rb0 : mrb) :
  forallb acceptable (scanned tokens) = true →
  existsb sets_help (scanned tokens) = true →
  run (prog :: tokens) rb0
  = (Returned EXIT_SUCCESS, mkWorld rb0 [Cout (usage +:+ endl)]).
Proof.
  intros Hall Hhelp. unfold run. fold (construct (prog :: tokens)).
  pose proof (construct_ok prog tokens Hall) as Hctor. unfold construct in Hctor.
  by rewrite (main_help _ _ _ _ Hctor).
Qed.

Lemma help_wins_witness :
  run (H := toy) ("rq" :: ["item.reverse"; "-v"; "raise"; "-vh"; "--"; "-x"])
    (toy_start "")
  = (Returned EXIT_SUCCESS, mkWorld (H := toy) (toy_start "") [Cout (usage +:+ endl)]).
Proof.
  apply (help_wins (H := toy) "rq" ["item.reverse"; "-v"; "raise"; "-vh"; "--"; "-x"]);
    reflexivity.
Defined.

(** A flag for the version, with no flag for help, on a command line whose
    options are well formed: the line [rq <version> (mruby <version>)] goes to
    standard output, nothing is evaluated, whatever expressions are given, and
    [main] returns [EXIT_SUCCESS]. *)
Theorem version_printed `{Runtime} (prog : string) (tokens : list string) (rb0 : mrb) :
  forallb acceptable (scanned tokens) = true →
  existsb sets_help (scanned tokens) = false →
  existsb sets_version (scanned tokens) = true →
  run (prog :: tokens) rb0
  = (Returned EXIT_SUCCESS,
     mkWorld rb0 [Cout ("rq " +:+ PROJECT_VERSION +:+ " (mruby " +:+ MRUBY_VERSION
                        +:+ ")" +:+ endl)]).
Proof.
  intros Hall Hhelp Hversion. unfold run.
  pose proof (construct_ok prog tokens Hall) as Hctor. unfold construct in Hctor.
  by rewrite (main_version _ _ _ _ Hctor).
Qed.

Lemma version_printed_witness :
  run (H := toy) ("rq" :: ["raise"; "--version"; "--"; "-h"]) (toy_start "")
  = (Returned EXIT_SUCCESS,
     mkWorld (H := toy) (toy_start "")
       [Cout ("rq " +:+ "0.1.0" +:+ " (mruby " +:+ "3.0.0" +:+ ")" +:+ endl)]).
Proof.
  apply (version_printed (H := toy) "rq" ["raise"; "--version"; "--"; "-h"]);
    reflexivity.
Defined.

(** A malformed option in front of any [--] fails the run before anything
    else happens, even behind a flag for help: standard error gets
    [rq: invalid option -c], an empty line and the usage text, standard output
    gets nothing, nothing is evaluated, and [main] returns [EXIT_FAILURE]. *)
Theorem malformed_option_fails_run `{Runtime} (prog : string) (pre post : list string)
    (t : string) (c : ascii) (rb0 : mrb) :
  "--" ∉ pre →
  forallb acceptable pre = true →
  option_like t = true →
  t ≠ "--" → t ≠ "--help" → t ≠ "--version" →
  first_invalid (after_first t) = Some c →
  run (prog :: pre ++ t :: post) rb0
  = (Returned EXIT_FAILURE,
     mkWorld rb0
       [Cerr ("rq: " +:+ ("invalid option -" +:+ String c EmptyString) +:+ endl +:+ endl);
        Cerr (usage +:+ endl)]).
Proof.
  intros Hnot Hall Hopt Hdd Hh Hv Hc. unfold run.
  assert (Hctor : construct (prog :: pre ++ t :: post)
                  = Thrown ("invalid option -" +:+ String c EmptyString)).
  { rewrite construct_filter. by rewrite (scan_filter_malformed pre post t c). }
  unfold construct in Hctor. by rewrite (main_throws _ _ _ _ Hctor).
Qed.

Lemma malformed_option_fails_run_witness :
  run (H := toy) ("rq" :: ["-h"; "a"] ++ "--verbose" :: ["b"]) (toy_start "[1, 2]")
  = (Returned EXIT_FAILURE,
     mkWorld (H := toy) (toy_start "[1, 2]")
       [Cerr ("rq: " +:+ ("invalid option -" +:+ String "-"%char EmptyString)
              +:+ endl +:+ endl);
        Cerr (usage +:+ endl)]).
Proof.
  apply (malformed_option_fails_run (H := toy) "rq" ["-h"; "a"] ["b"] "--verbose" "-"%char);
    [ by rewrite !elem_of_cons, elem_of_nil; intros [? | [? | ?]]
    | reflexivity | reflexivity | discriminate | discriminate | discriminate
    | reflexivity ].
Defined.

(** When standard input cannot be read into the item, standard output holds
    the line [reading from stdin] and what the read statement wrote, the
    diagnostics are [rq: read from stdin failed:] and the error of the
    interpreter, and [main] returns [EXIT_FAILURE]. *)
Theorem read_failure_reported `{Runtime} (argc : Z) (argv : list string)
    (opts : ProgramOptions) (rb0 rb1 : mrb) (out0 : string) :
  ProgramOptions_ctor argc argv = Returned opts →
  help opts = false → version opts = false →
  eval read_item rb0 = (false, out0, rb1) →
  ∃ w', main argc argv (mkWorld rb0 []) = (Returned EXIT_FAILURE, w')
    ∧ rb w' = rb1
    ∧ stdout (log w') = ("reading from stdin" +:+ endl) +:+ out0
    ∧ diagnostics (log w')
      = [Cerr ("rq: read from stdin failed:" +:+ endl); PrintError (print_error rb1)].
Proof.
  intros Hctor Hhelp Hversion Hread.
  rewrite (main_read_fails argc argv opts (mkWorld rb0 []) out0 rb1) by done.
  eexists. split; [reflexivity |]. split; [reflexivity |]. simpl.
  split; [by rewrite append_empty_r | reflexivity].
Qed.

Lemma read_failure_reported_witness :
  ∃ w', main 2 ["rq"; "item"] (mkWorld (H := toy) (toy_start "") [])
        = (Returned EXIT_FAILURE, w')
    ∧ rb w' = mkToy "" "" "JSON::ParserError"
    ∧ stdout (log w') = ("reading from stdin" +:+ endl) +:+ ""
    ∧ diagnostics (log w')
      = [Cerr ("rq: read from stdin failed:" +:+ endl); PrintError "JSON::ParserError"].
Proof.
  apply (read_failure_reported (H := toy) 2 ["rq"; "item"]
           (mkProgramOptions false false ["item"]) (toy_start "")
           (mkToy "" "" "JSON::ParserError") "");
    reflexivity.
Defined.

(** When every expression has succeeded and printing the item fails, [main]
    returns [EXIT_FAILURE]; the diagnostics are [rq: printing item failed] and
    the error of the interpreter, and the print statement is the last code
    evaluated. *)
Theorem print_failure_reported `{Runtime} (argc : Z) (argv : list string)
    (opts : ProgramOptions) (rb0 rb1 r2 r3 : mrb) (out0 out : string)
    (events : list event) :
  ProgramOptions_ctor argc argv = Returned opts →
  help opts = false → version opts = false →
  eval read_item rb0 = (true, out0, rb1) →
  succeed (expressions opts) rb1 = Some (events, r2) →
  eval print_item r2 = (false, out, r3) →
  ∃ w', main argc argv (mkWorld rb0 []) = (Returned EXIT_FAILURE, w')
    ∧ rb w' = r3
    ∧ evaluated (log w') = read_item :: map wrapped (expressions opts) ++ [print_item]
    ∧ diagnostics (log w')
      = [Cerr ("rq: printing item failed" +:+ endl); PrintError (print_error r3)].
Proof.
  intros Hctor Hhelp Hversion Hread Hall Hprint.
  rewrite (main_all_succeed argc argv opts (mkWorld rb0 []) out0 out rb1 r2 r3
             false events) by done.
  eexists. split; [reflexivity |]. split; [reflexivity |]. simpl. split.
  - rewrite evaluated_app. simpl. by rewrite (succeed_evaluated _ _ _ _ Hall).
  - unfold diagnostics. rewrite !filter_cons, filter_app. simpl.
    fold (diagnostics events). by rewrite (succeed_diagnostics _ _ _ _ Hall).
Qed.

(** The small interpreter again, but one that cannot print the item [nil]. *)
Definition strict_eval (code : string) (r : toy_rb) : bool * string * toy_rb :=
  if decide (code = print_item) then
    if decide (toy_item r = "nil") then
      (false, "", mkToy (toy_stdin r) (toy_item r) "JSON::GeneratorError")
    else toy_eval code r
  else toy_eval code r.

Definition strict_toy : Runtime := {|
  PROJECT_VERSION := "0.1.0";
  MRUBY_VERSION := "3.0.0";
  mrb := toy_rb;
  eval := strict_eval;
  print_error := toy_error;
  wrap_prefix := "item = (";
  wrap_suffix := ")"
|}.

Lemma print_failure_reported_witness :
  ∃ w', main 2 ["rq"; "item"] (mkWorld (H := strict_toy) (toy_start "nil") [])
        = (Returned EXIT_FAILURE, w')
    ∧ rb w' = mkToy "nil" "nil" "JSON::GeneratorError"
    ∧ evaluated (log w')
      = read_item :: map (wrapped (H := strict_toy)) ["item"] ++ [print_item]
    ∧ diagnostics (log w')
      = [Cerr ("rq: printing item failed" +:+ endl); PrintError "JSON::GeneratorError"].
Proof.
  apply (print_failure_reported (H := strict_toy) 2 ["rq"; "item"]
           (mkProgramOptions false false ["item"]) (toy_start "nil")
           (mkToy "nil" "nil" "") (mkToy "nil" "nil" "")
           (mkToy "nil" "nil" "JSON::GeneratorError") "" ""
           [Cout ("----> " +:+ toy_wrap "item" +:+ endl); Eval (toy_wrap "item") true ""]);
    reflexivity.
Defined.

(** Failure is always explained and success never is: every run returns
    [EXIT_SUCCESS] or [EXIT_FAILURE] (no exception leaves [main]), and it
    returns [EXIT_SUCCESS] exactly when it has written nothing to standard
    error and reported no interpreter error. *)
Theorem failure_iff_diagnostics `{Runtime} (argc : Z) (argv : list string) (rb0 : mrb) :
  ∃ code w', main argc argv (mkWorld rb0 []) = (Returned code, w')
    ∧ (code = EXIT_SUCCESS ∨ code = EXIT_FAILURE)
    ∧ (code = EXIT_SUCCESS ↔ diagnostics (log w') = []).
Proof.
  destruct (main_diagnostics argc argv rb0)
    as (code & w' & Hmain & [[-> Hd] | [-> [[what Hd] | (detail & text & Hd)]]]);
    eexists _, w'; (split; [exact Hmain |]); rewrite Hd; (split; [auto |]);
    split; intros; first [reflexivity | discriminate].
Qed.

(** Every line that [main] writes to standard error is the usage text or
    starts with [rq: ]. *)
Theorem error_lines_prefixed `{Runtime} (argc : Z) (argv : list string) (rb0 : mrb)
    (text : string) :
  Cerr text ∈ log (snd (main argc argv (mkWorld rb0 []))) →
  text = usage +:+ endl ∨ ∃ rest, text = "rq: " +:+ rest.
Proof.
  intros Hin.
  assert (Hd : Cerr text ∈ diagnostics (log (snd (main argc argv (mkWorld rb0 []))))).
  { apply list_elem_of_filter. by split. }
  destruct (main_diagnostics argc argv rb0)
    as (code & w' & Hmain & [[_ Hlog] | [_ [[what Hlog] | (detail & line & Hlog)]]]);
    rewrite Hmain in Hd; simpl in Hd; rewrite Hlog in Hd.
  - by apply elem_of_nil in Hd.
  - rewrite !elem_of_cons, elem_of_nil in Hd.
    destruct Hd as [[= ->] | [[= ->] | []]]; eauto.
  - rewrite !elem_of_cons, elem_of_nil in Hd.
    destruct Hd as [[= ->] | [[=] | []]]; eauto.
Qed.

Lemma error_lines_prefixed_witness :
  "rq: invalid option -x" +:+ endl +:+ endl = usage +:+ endl
  ∨ ∃ rest, "rq: invalid option -x" +:+ endl +:+ endl = "rq: " +:+ rest.
Proof.
  apply (error_lines_prefixed (H := toy) 2 ["rq"; "-x"] (toy_start "[1, 2]")).
  apply list_elem_of_here.
Defined.

(** The interpreter is given the read statement, the wrapped expressions in
    the order of [expressions], and the print statement, each at most once and
    none out of turn: what a run has evaluated is always an initial part of
    that sequence. *)
Theorem evaluated_in_order `{Runtime} (argc : Z) (argv : list string)
    (opts : ProgramOptions) (rb0 : mrb) :
  ProgramOptions_ctor argc argv = Returned opts →
  evaluated (log (snd (main argc argv (mkWorld rb0 []))))
    `prefix_of` read_item :: map wrapped (expressions opts) ++ [print_item].
Proof.
  intros Hctor.
  destruct (help opts) eqn:Hhelp.
  { rewrite (main_help _ _ _ _ Hctor Hhelp). apply prefix_nil. }
  destruct (version opts) eqn:Hversion.
  { rewrite (main_version _ _ _ _ Hctor Hhelp Hversion). apply prefix_nil. }
  destruct (eval read_item rb0) as [[[|] out0] rb1] eqn:Hread.
  2:{ rewrite (main_read_fails argc argv opts (mkWorld rb0 []) out0 rb1) by done.
      simpl. apply prefix_cons, prefix_nil. }
  destruct (succeed (expressions opts) rb1) as [[events r2] |] eqn:Hall.
  - destruct (eval print_item r2) as [[ok out] r3] eqn:Hprint.
    rewrite (main_all_succeed argc argv opts (mkWorld rb0 []) out0 out rb1 r2 r3
               ok events) by done.
    simpl. rewrite evaluated_app, (succeed_evaluated _ _ _ _ Hall).
    apply prefix_cons, prefix_app. by destruct ok.
  - destruct (succeed_none _ _ Hall)
      as (pre & e & post & events & r2 & out & r3 & Hexprs & Hpre & Hfail).
    rewrite (main_expression_fails argc argv opts (mkWorld rb0 []) out0 out rb1 r2 r3
               pre post e events) by done.
    simpl. rewrite evaluated_app, (succeed_evaluated _ _ _ _ Hpre), Hexprs.
    rewrite map_app, <- app_assoc. simpl.
    apply prefix_cons, prefix_app, prefix_cons, prefix_nil.
Qed.

Lemma evaluated_in_order_witness :
  evaluated (log (snd (main 4 ["rq"; "item"; "raise"; "item.reverse"]
                         (mkWorld (H := toy) (toy_start "[1, 2]") []))))
    `prefix_of` read_item
                :: map (wrapped (H := toy)) ["item"; "raise"; "item.reverse"]
                ++ [print_item].
Proof.
  apply (evaluated_in_order (H := toy) 4 ["rq"; "item"; "raise"; "item.reverse"]
           (mkProgramOptions false false ["item"; "raise"; "item.reverse"])).
  reflexivity.
Defined.

(** With no flag for help or version, [main] returns [EXIT_SUCCESS] exactly
    when the read statement, every expression in its turn, and the print
    statement all succeed. *)
Theorem success_iff_every_step_succeeds `{Runtime} (argc : Z) (argv : list string)
    (opts : ProgramOptions) (rb0 : mrb) :
  ProgramOptions_ctor argc argv = Returned opts →
  help opts = false → version opts = false →
  fst (main argc argv (mkWorld rb0 [])) = Returned EXIT_SUCCESS
  ↔ ∃ out0 rb1 events r2 out r3,
      eval read_item rb0 = (true, out0, rb1)
      ∧ succeed (expressions opts) rb1 = Some (events, r2)
      ∧ eval print_item r2 = (true, out, r3).
Proof.
  intros Hctor Hhelp Hversion. split.
  - destruct (eval read_item rb0) as [[[|] out0] rb1] eqn:Hread.
    2:{ by rewrite (main_read_fails argc argv opts (mkWorld rb0 []) out0 rb1) by done. }
    destruct (succeed (expressions opts) rb1) as [[events r2] |] eqn:Hall.
    + destruct (eval print_item r2) as [[ok out] r3] eqn:Hprint.
      rewrite (main_all_succeed argc argv opts (mkWorld rb0 []) out0 out rb1 r2 r3
                 ok events) by done.
      destruct ok; [| done]. intros _. eauto 10.
    + destruct (succeed_none _ _ Hall)
        as (pre & e & post & events & r2 & out & r3 & Hexprs & Hpre & Hfail).
      by rewrite (main_expression_fails argc argv opts (mkWorld rb0 []) out0 out rb1
                    r2 r3 pre post e events) by done.
  - intros (out0 & rb1 & events & r2 & out & r3 & Hread & Hall & Hprint).
    by rewrite (main_all_succeed argc argv opts (mkWorld rb0 []) out0 out rb1 r2 r3
                  true events) by done.
Qed.

Lemma success_iff_every_step_succeeds_witness :
  fst (main 3 ["rq"; "item.reverse"; "item"] (mkWorld (H := toy) (toy_start "[1, 2]") []))
  = Returned EXIT_SUCCESS
  ↔ ∃ out0 rb1 events r2 out r3,
      toy_eval read_item (toy_start "[1, 2]") = (true, out0, rb1)
      ∧ succeed (H := toy) ["item.reverse"; "item"] rb1 = Some (events, r2)
      ∧ toy_eval print_item r2 = (true, out, r3).
Proof.
  apply (success_iff_every_step_succeeds (H := toy) 3 ["rq"; "item.reverse"; "item"]
           (mkProgramOptions false false ["item.reverse"; "item"]));
    reflexivity.
Defined.

Section LoopFacts.
Context `{Runtime}.

(** The loop over a list of expressions followed by another is the loop over
    the first, and then, unless that one returned from [main], the loop over
    the second, from the world the first one left. *)
Theorem expressions_run_in_sequence (first second : list string) (w : world) :
  for_expressions (first ++ second) w =
  match for_expressions first w with
  | (Returned None, w') => for_expressions second w'
  | stopped => stopped
  end.
Proof.
  revert w. induction first as [| e first IH]; intros w; [done |].
  simpl. unfold mbind, io_bind, ExpressionWrapper_wrap, mret, io_ret, emit,
    rb_eval, rb_print_error. simpl.
  destruct (eval _ (rb w)) as [[[|] out] r1]; simpl; [apply IH | done].
Qed.

End LoopFacts.
